(** * Bayesian inference for Normal means and Poisson rates (package [bayes])

    A shallow embedding of [bayes/poisson.go], [bayes/normal_mu.go] and
    [bayes/normal_diff.go], and the properties of it that the specification
    states.

    Conventions of the embedding.
    - A Go [float64] is a real number of [R]: the embedding is exact real
      arithmetic, so rounding, infinities and NaN are outside the model.
      [math.Sqrt], [math.Exp], [math.Floor] and [math.Ceil] are [sqrt], [exp],
      [Zfloor] and [Zceil] of the standard library.  A statement about a
      computed number therefore carries the hypotheses that keep the
      computation away from a division by zero, the square root of a negative
      number, and the overflow or underflow of an exponential; where the
      result is an integer obtained by rounding, the statement leaves open
      which of two equally near integers is returned.
    - A Go [int64] (and [int]) is an integer of [Z]; the only integer
      operation of the package, the negation [-n] of an [int64], is written
      with its two's-complement wrap-around.  The conversion [float64(k)] is
      the injection [IZR].
    - A Go [panic] is the constructor [Panic] of the type [result]; a function
      of the package that has no [panic] statement is a plain function.
    - The package [dst] (distribution primitives) is not part of the sources;
      its functions are the fields of the class [Dst]. *)

From Stdlib Require Import Reals Lra Lia ZArith String List Bool.
Import ListNotations.

Set Implicit Arguments.
Open Scope R_scope.

(** ** Results and panics *)

Inductive result (A : Type) : Type :=
| Ok (a : A)
| Panic (msg : string).

Arguments Ok {A} a.
Arguments Panic {A} msg.

Definition bind {A B : Type} (m : result A) (k : A -> result B) : result B :=
  match m with
  | Ok a => k a
  | Panic msg => Panic msg
  end.

Notation "x <- m ;; k" := (bind m (fun x => k))
  (at level 61, m at next level, right associativity).

Definition is_panic {A : Type} (m : result A) : Prop :=
  exists msg, m = Panic msg.

(** ** Machine integers *)

Definition min_int64 : Z := (- 2 ^ 63)%Z.
Definition max_int64 : Z := (2 ^ 63 - 1)%Z.

Definition in_int64 (z : Z) : Prop := (min_int64 <= z <= max_int64)%Z.

(** Reduction of an integer to the [int64] that has the same low 64 bits. *)
Definition wrap64 (z : Z) : Z := ((z + 2 ^ 63) mod 2 ^ 64 - 2 ^ 63)%Z.

(** The unary minus of Go on an [int64]. *)
Definition neg64 (n : Z) : Z := wrap64 (- n).

(** [float64(k)] for an integer [k]. *)
Definition float64 (k : Z) : R := IZR k.

(** ** The distribution primitives of package [dst] *)

Class Dst : Type := {
  (** state of the pseudo-random generator behind [GammaNext] *)
  Rng : Type;
  (** density of the standard Normal distribution at a point *)
  ZPDFAt : R -> R;
  ZPDFAt_nonneg : forall z, 0 <= ZPDFAt z;
  (** Normal distribution with mean and standard deviation *)
  NormalPDF : R -> R -> R -> R;
  NormalCDF : R -> R -> R -> R;
  NormalQtl : R -> R -> R -> R;
  NormalQtlFor : R -> R -> R -> R;
  (** Gamma distribution with shape and scale *)
  GammaPDF : R -> R -> R -> R;
  GammaCDF : R -> R -> R -> R;
  GammaQtl : R -> R -> R -> R;
  GammaNext : R -> R -> Rng -> R * Rng;
  (** quantile function of Student's t with the given degrees of freedom *)
  StudentsTQtl : R -> R -> R
}.

(** ** [bayes/poisson.go] *)

Section Poisson.

Context {D : Dst}.

Definition bad_data : string := "bad data".
Definition bad_gamma_prior : string :=
  "Shape parameter r and rate parameter v must be greater than or equal to zero".

(** Poisson λ, posterior PDF, flat prior. *)
Definition PoissonLambdaPDFFPri (sumK n : Z) : result (R -> R) :=
  if ((sumK <? 0)%Z || (n <=? 0)%Z)%bool then Panic bad_data
  else
    let r1 := float64 sumK + 1.0 in
    let v1 := float64 n in
    Ok (GammaPDF r1 (1 / v1)).

(** Poisson λ, posterior PDF, Jeffreys' prior. *)
Definition PoissonLambdaPDFJPri (sumK n : Z) : result (R -> R) :=
  if ((sumK <? 0)%Z || (n <=? 0)%Z)%bool then Panic bad_data
  else
    let r1 := float64 sumK + 0.5 in
    let v1 := float64 n in
    Ok (GammaPDF r1 (1 / v1)).

(** Poisson λ, posterior PDF, gamma prior. *)
Definition PoissonLambdaPDFGPri (sumK n : Z) (r v : R) : result (R -> R) :=
  if ((sumK <? 0)%Z || (n <=? 0)%Z)%bool then Panic bad_data
  else if Rlt_dec r 0 then Panic bad_gamma_prior
  else if Rlt_dec v 0 then Panic bad_gamma_prior
  else
    let r1 := r + float64 sumK in
    let v1 := v + float64 n in
    Ok (GammaPDF r1 (1 / v1)).

(** Poisson λ, posterior CDF, flat prior. *)
Definition PoissonLambdaCDFFPri (sumK n : Z) : result (R -> R) :=
  if ((sumK <? 0)%Z || (n <=? 0)%Z)%bool then Panic bad_data
  else
    let r1 := float64 sumK + 1.0 in
    let v1 := float64 n in
    Ok (GammaCDF r1 (1 / v1)).

(** Poisson λ, posterior CDF, Jeffreys' prior. *)
Definition PoissonLambdaCDFJPri (sumK n : Z) : result (R -> R) :=
  if ((sumK <? 0)%Z || (n <=? 0)%Z)%bool then Panic bad_data
  else
    let r1 := float64 sumK + 0.5 in
    let v1 := float64 n in
    Ok (GammaCDF r1 (1 / v1)).

(** Poisson λ, posterior CDF, gamma prior. *)
Definition PoissonLambdaCDFGPri (sumK n : Z) (r v : R) : result (R -> R) :=
  if ((sumK <? 0)%Z || (n <=? 0)%Z)%bool then Panic bad_data
  else if Rlt_dec r 0 then Panic bad_gamma_prior
  else if Rlt_dec v 0 then Panic bad_gamma_prior
  else
    let r1 := r + float64 sumK in
    let v1 := v + float64 n in
    Ok (GammaCDF r1 (1 / v1)).

(** Poisson λ, posterior quantile function, flat prior. *)
Definition PoissonLambdaQtlFPri (sumK n : Z) : result (R -> R) :=
  if ((sumK <? 0)%Z || (n <=? 0)%Z)%bool then Panic bad_data
  else
    let r1 := float64 sumK + 1.0 in
    let v1 := float64 n in
    Ok (GammaQtl r1 (1 / v1)).

(** Poisson λ, posterior quantile function, Jeffreys' prior. *)
Definition PoissonLambdaQtlJPri (sumK n : Z) : result (R -> R) :=
  if ((sumK <? 0)%Z || (n <=? 0)%Z)%bool then Panic bad_data
  else
    let r1 := float64 sumK + 0.5 in
    let v1 := float64 n in
    Ok (GammaQtl r1 (1 / v1)).

(** Poisson λ, posterior quantile function, gamma prior. *)
Definition PoissonLambdaQtlGPri (sumK n : Z) (r v : R) : result (R -> R) :=
  if ((sumK <? 0)%Z || (n <=? 0)%Z)%bool then Panic bad_data
  else if Rlt_dec r 0 then Panic bad_gamma_prior
  else if Rlt_dec v 0 then Panic bad_gamma_prior
  else
    let r1 := r + float64 sumK in
    let v1 := v + float64 n in
    Ok (GammaQtl r1 (1 / v1)).

(** Random number drawn from the posterior, flat prior. *)
Definition PoissonLambdaNextFPri (sumK n : Z) (g : Rng) : result (R * Rng) :=
  if ((sumK <? 0)%Z || (n <=? 0)%Z)%bool then Panic bad_data
  else
    let r1 := float64 sumK + 1.0 in
    let v1 := float64 n in
    Ok (GammaNext r1 (1 / v1) g).

(** Random number drawn from the posterior, Jeffreys' prior. *)
Definition PoissonLambdaNextJPri (sumK n : Z) (g : Rng) : result (R * Rng) :=
  if ((sumK <? 0)%Z || (n <=? 0)%Z)%bool then Panic bad_data
  else
    let r1 := float64 sumK + 0.5 in
    let v1 := float64 n in
    Ok (GammaNext r1 (1 / v1) g).

(** Random number drawn from the posterior, Gamma prior. *)
Definition PoissonLambdaNextGPri (sumK n : Z) (r v : R) (g : Rng)
  : result (R * Rng) :=
  if ((sumK <? 0)%Z || (n <=? 0)%Z)%bool then Panic bad_data
  else if Rlt_dec r 0 then Panic bad_gamma_prior
  else if Rlt_dec v 0 then Panic bad_gamma_prior
  else
    let r1 := r + float64 sumK in
    let v1 := v + float64 n in
    Ok (GammaNext r1 (1 / v1) g).

(** Likelihood of Poisson λ. *)
Definition PoissonLambdaLike (sumK n : Z) (λ : R) : R :=
  λ * float64 sumK * exp (float64 (neg64 n) * λ).

(** Equivalent sample size of the prior. *)
Definition PoissonLambdaEqvSize (v : R) : R := IZR (Zfloor v).

(** Posterior mean. *)
Definition PoissonLambdaPostMean (sumK n : Z) (r v : R) : R :=
  let r1 := float64 sumK + 1.0 in
  let v1 := 1.0 in
  r1 / v1.

(** Posterior mean bias. *)
Definition PoissonLambdaPostMeanBias (r v λ : R) : R :=
  (r - v * λ) / (v + 1).

(** Posterior variance. *)
Definition PoissonLambdaPostVar (r v λ : R) : R := λ / (v * v).

(** Mean squared error of λ. *)
Definition PoissonLambdaMSE (r v λ : R) : R :=
  let bsq := PoissonLambdaPostMeanBias r v λ in
  let bsq := bsq * bsq in
  let variance := PoissonLambdaPostVar r v λ in
  bsq + variance.

(** Posterior interquartile range of λ. *)
Definition PoissonLambdaIQR (sumK n : Z) (r v : R) : result R :=
  qf <- PoissonLambdaQtlGPri sumK n r v ;;
  let q1 := qf 0.25 in
  let q3 := qf 0.75 in
  Ok (q3 - q1).

(** Credible interval for unknown Poisson rate λ, gamma prior, equal tail
    area. *)
Definition PoissonLambdaCrIGPri (sumK n : Z) (r v α : R) : result (R * R) :=
  qf <- PoissonLambdaQtlGPri sumK n r v ;;
  let lo := qf (α / 2) in
  let hi := qf (1 - α / 2) in
  Ok (lo, hi).

(** One-sided test for Poisson rate λ; H0: λ <= λ0 vs H1: λ > λ0. *)
Definition PoissonLambdaOneSidedTst (sumK n : Z) (r v α λ0 : R) : result bool :=
  cdf <- PoissonLambdaCDFGPri sumK n r v ;;
  let p0 := cdf λ0 in
  Ok (if Rlt_dec p0 α then true else false).

(** One-sided odds ratio for Poisson rate λ. *)
Definition PoissonLambdaOneSidedOdds (sumK n : Z) (r v λ0 : R) : result R :=
  cdf <- PoissonLambdaCDFGPri sumK n r v ;;
  let p0 := cdf λ0 in
  Ok (p0 / (1 - p0)).

(** Two-sided test for Poisson rate λ; H0: λ = λ0 vs H1: λ != λ0. *)
Definition PoissonLambdaTwoSidedTst (sumK n : Z) (r v α λ0 : R) : result bool :=
  lohi <- PoissonLambdaCrIGPri sumK n r v α ;;
  let '(low, high) := lohi in
  Ok (if Rlt_dec λ0 low then true
      else if Rgt_dec λ0 high then true else false).

End Poisson.

(** ** [bayes/normal_mu.go] *)

Section NormalMu.

Context {D : Dst}.

Definition len_mismatch : string := "len(μ) != len(μPri)".
Definition bad_sigma : string :=
  "Prior standard deviation must be greater than zero".

(** First loop of [NormMuSinglePMFDPri]: the unnormalized posterior masses,
    in order, and the running total [sum] after the last one. *)
Fixpoint NormMuSinglePMFDPri_loop (y σ : R) (μ μPri : list R) (sum : R)
  : list R * R :=
  match μ, μPri with
  | μi :: μ', pri :: μPri' =>
      let z := (y - μi) / σ in
      let like := ZPDFAt z in
      let posti := pri * like in
      let '(post, sum') := NormMuSinglePMFDPri_loop y σ μ' μPri' (sum + posti) in
      (posti :: post, sum')
  | _, _ => ([], sum)
  end.

(** PMF of the posterior distribution of unknown Normal μ, with known σ, and
    discrete prior, for single observation. *)
Definition NormMuSinglePMFDPri (y σ : R) (μ μPri : list R) : result (list R) :=
  let nPoss := length μ in
  if negb (length μPri =? nPoss)%nat then Panic len_mismatch
  else
    let '(post, sum) := NormMuSinglePMFDPri_loop y σ μ μPri 0.0 in
    Ok (map (fun posti => posti / sum) post).

(** First loop of [NormMuPMFDPri]. *)
Fixpoint NormMuPMFDPri_loop (n ȳ σ : R) (μ μPri : list R) (sum : R)
  : list R * R :=
  match μ, μPri with
  | μi :: μ', pri :: μPri' =>
      let σ2 := σ * σ in
      let δ := ȳ - μi in
      let like := exp ((-1) / (2 * σ2 / n) * δ * δ) in
      let posti := pri * like in
      let '(post, sum') := NormMuPMFDPri_loop n ȳ σ μ' μPri' (sum + posti) in
      (posti :: post, sum')
  | _, _ => ([], sum)
  end.

(** PMF of the posterior distribution of unknown Normal μ, with known σ, and
    discrete prior, for sample. *)
Definition NormMuPMFDPri (nObs : Z) (ȳ σ : R) (μ μPri : list R)
  : result (list R) :=
  let nPoss := length μ in
  if negb (length μPri =? nPoss)%nat then Panic len_mismatch
  else
    let n := float64 nObs in
    let '(post, sum) := NormMuPMFDPri_loop n ȳ σ μ μPri 0.0 in
    Ok (map (fun posti => posti / sum) post).

(** Posterior mean for unknown Normal μ, with known σ. *)
Definition NormMuPostMean (nObs : Z) (ȳ σ μPri σPri : R) : R :=
  let σ2 := σ * σ in
  let n := float64 nObs in
  let σ2Pri := σPri * σPri in
  let μPost :=
    (μPri / σ2Pri) / (n / σ2 + 1 / σ2Pri)
    + ȳ * (n / σ2) / (n / σ2 + 1 / σ2Pri) in
  μPost.

(** Posterior standard deviation for unknown Normal μ, with known σ. *)
Definition NormMuPostStd (nObs : Z) (σ μPri σPri : R) : R :=
  let σ2 := σ * σ in
  let n := float64 nObs in
  let σ2Pri := σPri * σPri in
  let σ2Post := (σ2 * σ2Pri) / (σ2 + n * σ2Pri) in
  let σPost := sqrt σ2Post in
  σPost.

(** Quantile for the posterior of μ, known σ, flat prior, single
    observation. *)
Definition NormMuSingleQtlFPri (y σ p : R) : R :=
  let μPost := y in
  let σPost := σ in
  let qtl := NormalQtlFor μPost σPost p in
  qtl.

(** Quantile for the posterior of μ, known σ, flat prior, sample. *)
Definition NormMuQtlFPri (nObs : Z) (ȳ σ p : R) : result R :=
  if Rle_dec σ 0 then Panic bad_sigma
  else
    let n := float64 nObs in
    let σ2 := σ * σ in
    let μPost := ȳ in
    let σ2Post := σ2 / n in
    let σPost := sqrt σ2Post in
    Ok (NormalQtlFor μPost σPost p).

(** Quantile for the posterior of μ, known σ, Normal prior, single
    observation. *)
Definition NormMuSingleQtlNPri (y σ μPri σPri p : R) : result R :=
  if Rle_dec σ 0 then Panic bad_sigma
  else
    let σ2 := σ * σ in
    let σ2Pri := σPri * σPri in
    let μPost := (σ2 * μPri + σ2Pri * y) / (σ2 + σ2Pri) in
    let σ2Post := (σ2 * σ2Pri) / (σ2 + σ2Pri) in
    let σPost := sqrt σ2Post in
    Ok (NormalQtlFor μPost σPost p).

(** Quantile for the posterior of μ, known σ, Normal prior, sample. *)
Definition NormMuQtlNPri (nObs : Z) (ȳ σ μPri σPri p : R) : R :=
  let n := float64 nObs in
  let σ2 := σ * σ in
  let σ2Pri := σPri * σPri in
  let σ2Post := (σ2 * σ2Pri) / (σ2 + n * σ2Pri) in
  let μPost :=
    (μPri / σ2Pri) / (n / σ2 + 1 / σ2Pri)
    + ȳ * (n / σ2) / (n / σ2 + 1 / σ2Pri) in
  let σPost := sqrt σ2Post in
  NormalQtlFor μPost σPost p.

(** Credible interval for unknown Normal μ, known σ, Normal prior. *)
Definition NormMuCrINPriKnown (nObs : Z) (ȳ σ μPri σPri α : R) : R * R :=
  let n := float64 nObs in
  let σ2 := σ * σ in
  let σ2Pri := σPri * σPri in
  let σ2Post := (σ2 * σ2Pri) / (σ2 + n * σ2Pri) in
  let μPost :=
    (μPri / σ2Pri) / (n / σ2 + 1 / σ2Pri)
    + ȳ * (n / σ2) / (n / σ2 + 1 / σ2Pri) in
  let σPost := sqrt σ2Post in
  let lo := NormalQtlFor μPost σPost (α / 2) in
  let hi := NormalQtlFor μPost σPost (1 - α / 2) in
  (lo, hi).

(** Credible interval for unknown Normal μ, known σ, flat prior. *)
Definition NormMuCrIFPriKnown (nObs : Z) (ȳ σ α : R) : R * R :=
  let n := float64 nObs in
  let μPost := ȳ in
  let σ2Post := σ * σ / n in
  let σPost := sqrt σ2Post in
  let lo := NormalQtlFor μPost σPost (α / 2) in
  let hi := NormalQtlFor μPost σPost (1 - α / 2) in
  (lo, hi).

End NormalMu.

(** ** [bayes/normal_diff.go] *)

Section NormalDiff.

Context {D : Dst}.

(** Posterior PDF of the difference of two means, known variances, Normal
    priors. *)
Definition NormalMuDiffPDFNPriKn (nObs1 nObs2 : Z)
  (ȳ1 ȳ2 σ1 σ2 μ1Pri σ1Pri μ2Pri σ2Pri : R) : R -> R :=
  let μ1Post := NormMuPostMean nObs1 ȳ1 σ1 μ1Pri σ1Pri in
  let σ1Post := NormMuPostStd nObs1 σ1 μ1Pri σ1Pri in
  let μ2Post := NormMuPostMean nObs2 ȳ2 σ2 μ2Pri σ2Pri in
  let σ2Post := NormMuPostStd nObs2 σ2 μ2Pri σ2Pri in
  let μdPost := μ1Post - μ2Post in
  let σdPost := sqrt (σ1Post * σ1Post + σ2Post * σ2Post) in
  NormalPDF μdPost σdPost.

(** Posterior CDF of the difference of two means, known variances, Normal
    priors. *)
Definition NormalMuDiffCDFNPriKn (nObs1 nObs2 : Z)
  (ȳ1 ȳ2 σ1 σ2 μ1Pri σ1Pri μ2Pri σ2Pri : R) : R -> R :=
  let μ1Post := NormMuPostMean nObs1 ȳ1 σ1 μ1Pri σ1Pri in
  let σ1Post := NormMuPostStd nObs1 σ1 μ1Pri σ1Pri in
  let μ2Post := NormMuPostMean nObs2 ȳ2 σ2 μ2Pri σ2Pri in
  let σ2Post := NormMuPostStd nObs2 σ2 μ2Pri σ2Pri in
  let μdPost := μ1Post - μ2Post in
  let σdPost := sqrt (σ1Post * σ1Post + σ2Post * σ2Post) in
  NormalCDF μdPost σdPost.

(** Posterior quantile of the difference of two means, known variances,
    Normal priors. *)
Definition NormalMuDiffQtlNPriKn (nObs1 nObs2 : Z)
  (ȳ1 ȳ2 σ1 σ2 μ1Pri σ1Pri μ2Pri σ2Pri : R) : R -> R :=
  let μ1Post := NormMuPostMean nObs1 ȳ1 σ1 μ1Pri σ1Pri in
  let σ1Post := NormMuPostStd nObs1 σ1 μ1Pri σ1Pri in
  let μ2Post := NormMuPostMean nObs2 ȳ2 σ2 μ2Pri σ2Pri in
  let σ2Post := NormMuPostStd nObs2 σ2 μ2Pri σ2Pri in
  let μdPost := μ1Post - μ2Post in
  let σdPost := sqrt (σ1Post * σ1Post + σ2Post * σ2Post) in
  NormalQtl μdPost σdPost.

Definition index_out_of_range : string :=
  "runtime error: index out of range".

(** First loop of [varest]: [k] iterations are left and [y] is the part of
    the slice from the current index on; reading past its end panics. *)
Fixpoint varest_mean_loop (y : list R) (k : nat) (mean : R) {struct k}
  : result R :=
  match k with
  | O => Ok mean
  | S k' =>
      match y with
      | [] => Panic index_out_of_range
      | yi :: y' => varest_mean_loop y' k' (mean + yi)
      end
  end.

(** Second loop of [varest]. *)
Fixpoint varest_sum_loop (y : list R) (k : nat) (mean sum : R) {struct k}
  : result R :=
  match k with
  | O => Ok sum
  | S k' =>
      match y with
      | [] => Panic index_out_of_range
      | yi :: y' =>
          varest_sum_loop y' k' mean (sum + (yi - mean) * (yi - mean))
      end
  end.

(** Variance estimate from a single sample from a Normal distribution with
    unknown variance. *)
Definition varest (y : list R) (nObs : Z) : result R :=
  let n := float64 nObs in
  mean <- varest_mean_loop y (Z.to_nat nObs) 0.0 ;;
  let mean := mean / n in
  sum <- varest_sum_loop y (Z.to_nat nObs) mean 0.0 ;;
  Ok (sum / (n - 1)).

(** Satterthwaite's adjusted degrees of freedom. *)
Definition satterthwaitenu (estvar1 : R) (nObs1 : Z) (estvar2 : R) (nObs2 : Z)
  : R :=
  let n1 := float64 nObs1 in
  let n2 := float64 nObs2 in
  let f1 := (estvar1 / n1 + estvar2 / n2) * (estvar1 / n1 + estvar2 / n2) in
  let f2 := (estvar1 / n1) * (estvar1 / n1) / (n1 + 1) in
  let f3 := (estvar2 / n2) * (estvar2 / n2) / (n2 + 1) in
  let v := f1 / (f2 + f3) in
  if Rle_dec (v - IZR (Zfloor v)) (IZR (Zceil v) - v)
  then IZR (Zfloor v)
  else IZR (Zceil v).

(** Quantile of the difference of two means, unknown variances
    (Behrens-Fisher), Normal priors.  The parameter [p] of the constructor is
    hidden by the parameter [p] of the function it returns. *)
Definition NormalMuDiffQtlNPriUn (nObs1 nObs2 : Z)
  (ȳ1 ȳ2 s1 s2 μ1Pri σ1Pri μ2Pri σ2Pri p : R) : R -> R :=
  fun p =>
    let μ1Post := NormMuPostMean nObs1 ȳ1 s1 μ1Pri σ1Pri in
    let σ1Post := NormMuPostStd nObs1 s1 μ1Pri σ1Pri in
    let μ2Post := NormMuPostMean nObs2 ȳ2 s2 μ2Pri σ2Pri in
    let σ2Post := NormMuPostStd nObs2 s2 μ2Pri σ2Pri in
    let μdPost := μ1Post - μ2Post in
    let nu := satterthwaitenu (s1 * s1) nObs1 (s2 * s2) nObs2 in
    let t := StudentsTQtl nu in
    let α := 1 - 2 * p in
    if Rlt_dec p 0.5
    then μdPost - t (α / 2) * sqrt (σ1Post * σ1Post + σ2Post * σ2Post)
    else μdPost + t (α / 2) * sqrt (σ1Post * σ1Post + σ2Post * σ2Post).

(** Credible interval of the difference of two means, unknown variances,
    Normal priors.  The parameter [α] of the constructor is hidden by the
    parameter [α] of the function it returns. *)
Definition NormalMuDiffCrINPriUn (nObs1 nObs2 : Z)
  (ȳ1 ȳ2 s1 s2 μ1Pri σ1Pri μ2Pri σ2Pri α : R) : R -> R * R :=
  fun α =>
    let μ1Post := NormMuPostMean nObs1 ȳ1 s1 μ1Pri σ1Pri in
    let σ1Post := NormMuPostStd nObs1 s1 μ1Pri σ1Pri in
    let μ2Post := NormMuPostMean nObs2 ȳ2 s2 μ2Pri σ2Pri in
    let σ2Post := NormMuPostStd nObs2 s2 μ2Pri σ2Pri in
    let μdPost := μ1Post - μ2Post in
    let nu := satterthwaitenu (s1 * s1) nObs1 (s2 * s2) nObs2 in
    let t := StudentsTQtl nu in
    let lo := μdPost - t (α / 2) * sqrt (σ1Post * σ1Post + σ2Post * σ2Post) in
    let hi := μdPost + t (α / 2) * sqrt (σ1Post * σ1Post + σ2Post * σ2Post) in
    (lo, hi).

(** Credible interval of the difference of two means, unknown variances, flat
    priors. *)
Definition NormalMuDiffCrIFPriUn (nObs1 nObs2 : Z)
  (ȳ1 ȳ2 s1 s2 μ1Pri σ1Pri μ2Pri σ2Pri α : R) : R -> R * R :=
  fun α =>
    let μ1Post := NormMuPostMean nObs1 ȳ1 s1 μ1Pri σ1Pri in
    let μ2Post := NormMuPostMean nObs2 ȳ2 s2 μ2Pri σ2Pri in
    let μdPost := μ1Post - μ2Post in
    let nu := satterthwaitenu (s1 * s1) nObs1 (s2 * s2) nObs2 in
    let t := StudentsTQtl nu in
    let lo := μdPost - t (α / 2) * sqrt (s1 * s1 + s2 * s2) in
    let hi := μdPost + t (α / 2) * sqrt (s1 * s1 + s2 * s2) in
    (lo, hi).

(** Posterior moments of the difference of two means, known variances, Normal
    priors. *)
Definition NormalMuDiffMomentsNPriKn (nObs1 nObs2 : Z)
  (ȳ1 ȳ2 σ1 σ2 μ1Pri σ1Pri μ2Pri σ2Pri : R) : R * R :=
  let μ1Post := NormMuPostMean nObs1 ȳ1 σ1 μ1Pri σ1Pri in
  let σ1Post := NormMuPostStd nObs1 σ1 μ1Pri σ1Pri in
  let μ2Post := NormMuPostMean nObs2 ȳ2 σ2 μ2Pri σ2Pri in
  let σ2Post := NormMuPostStd nObs2 σ2 μ2Pri σ2Pri in
  let μdPost := μ1Post - μ2Post in
  let σdPost := sqrt (σ1Post * σ1Post + σ2Post * σ2Post) in
  (μdPost, σdPost).

End NormalDiff.

(** ** [cmd/poissonRateBayes/poissonRateBayes.go]

    The program after it has scanned [x], [n], [r] and [v]: what it prints,
    line by line, and the panic that ends it, if any. *)

Section PoissonRateBayes.

Context {D : Dst}.

Inductive line : Type :=
| Header
| Row (p q : R)
| Footer.

Definition pr : list R :=
  [0.005; 0.01; 0.025; 0.05; 0.5; 0.95; 0.975; 0.99; 0.995].

(** The loop over [pr]: [ps] are the probabilities still to print and [out]
    the lines printed so far. *)
Fixpoint main_loop (x n : Z) (r v : R) (ps : list R) (out : list line)
  : list line * option string :=
  match ps with
  | [] => (out ++ [Footer], None)
  | p :: ps' =>
      match PoissonLambdaQtlGPri x n r v with
      | Panic msg => (out, Some msg)
      | Ok qtl => main_loop x n r v ps' (out ++ [Row p (qtl p)])
      end
  end.

Definition main (x n : Z) (r v : R) : list line * option string :=
  if Rlt_dec r 0 then ([], Some bad_gamma_prior)
  else if Rlt_dec v 0 then ([], Some bad_gamma_prior)
  else main_loop x n r v pr [Header].

End PoissonRateBayes.

(** ** The conjugate update rule, as the specification words it *)

(** Posterior shape [r1 = r_prior + sumK]. *)
Definition posterior_shape (r_prior : R) (sumK : Z) : R := r_prior + IZR sumK.

(** Posterior rate [v1 = v_prior + n]. *)
Definition posterior_rate (v_prior : R) (n : Z) : R := v_prior + IZR n.

(** Prior parameters [(r_prior, v_prior)] of the three prior variants. *)
Inductive prior : Type :=
| FlatPrior
| JeffreysPrior
| GammaPrior (r v : R).

Definition prior_shape (pr : prior) : R :=
  match pr with
  | FlatPrior => 1
  | JeffreysPrior => 0.5
  | GammaPrior r _ => r
  end.

Definition prior_rate (pr : prior) : R :=
  match pr with
  | FlatPrior => 0
  | JeffreysPrior => 0
  | GammaPrior _ v => v
  end.

(** ** Discrete posteriors and rounding, as the specification words them *)

(** Sum of a list of masses. *)
Definition Rsum (l : list R) : R := fold_right Rplus 0 l.

(** [priorMass_i * L_i] for every candidate, [L_i] the likelihood at the
    candidate [μ_i]. *)
Definition weighted (like : R -> R) (μ μPri : list R) : list R :=
  map (fun c => snd c * like (fst c)) (combine μ μPri).

(** Likelihood of one observation [y]: the standard Normal density of the
    z-score. *)
Definition single_likelihood {D : Dst} (y σ μi : R) : R :=
  ZPDFAt ((y - μi) / σ).

(** Likelihood of a sample of size [n] and mean [ȳ], without the Gaussian
    constant: [exp (- n (ȳ - μ_i)² / (2 σ²))]. *)
Definition sample_likelihood (n : Z) (ȳ σ μi : R) : R :=
  exp (- (IZR n * ((ȳ - μi) * (ȳ - μi))) / (2 * (σ * σ))).

(** Masses proportional to [m], scaled to total 1. *)
Definition normalized (m : list R) : list R :=
  map (fun x => x / Rsum m) m.

(** Satterthwaite's ratio
    [(s1²/n1 + s2²/n2)² / ((s1²/n1)²/(n1+1) + (s2²/n2)²/(n2+1))],
    with [estvar = s²]. *)
Definition satterthwaite_ratio (estvar1 : R) (n1 : Z) (estvar2 : R) (n2 : Z)
  : R :=
  (estvar1 / IZR n1 + estvar2 / IZR n2) ^ 2
  / ((estvar1 / IZR n1) ^ 2 / (IZR n1 + 1)
     + (estvar2 / IZR n2) ^ 2 / (IZR n2 + 1)).

(** Variance of the conjugate Normal posterior: the inverse of the sum of the
    prior precision [1/σPri²] and the data precision [n/σ²]. *)
Definition posterior_variance (n : Z) (σ σPri : R) : R :=
  1 / (1 / (σPri * σPri) + IZR n / (σ * σ)).

(** [k] is an integer nearest to [x]. *)
Definition nearest_integer (x : R) (k : Z) : Prop :=
  forall j : Z, Rabs (x - IZR k) <= Rabs (x - IZR j).


(** Sum of the squared deviations of the observations [y] from [m]. *)
Definition sum_sq_dev (m : R) (y : list R) : R :=
  Rsum (map (fun yi => (yi - m) * (yi - m)) y).

(** The discrete prior of the scenario from the literature: candidates
    [2, 2.5, 3, 3.5, 4] with prior masses [0.1, 0.2, 0.4, 0.2, 0.1]. *)
Definition bolstad_values : list R := [2; 2.5; 3; 3.5; 4].
Definition bolstad_masses : list R := [0.1; 0.2; 0.4; 0.2; 0.1].

(** ** An instance of the primitives

    The standard Normal density is the textbook one; the functions that have
    no closed form are replaced by simple total functions.  The instance only
    serves to evaluate the statements below at concrete inputs. *)

Definition std_normal_pdf (z : R) : R := exp (- (z * z) / 2) / sqrt (2 * PI).

Lemma std_normal_pdf_pos (z : R) : 0 < std_normal_pdf z.
Proof.
  unfold std_normal_pdf.
  apply Rdiv_lt_0_compat.
  - apply exp_pos.
  - apply sqrt_lt_R0. generalize PI_RGT_0. lra.
Qed.

Lemma std_normal_pdf_nonneg (z : R) : 0 <= std_normal_pdf z.
Proof. left. apply std_normal_pdf_pos. Qed.

Definition DstExample : Dst := {|
  Rng := nat;
  ZPDFAt := std_normal_pdf;
  ZPDFAt_nonneg := std_normal_pdf_nonneg;
  NormalPDF := fun μ σ x => std_normal_pdf ((x - μ) / σ) / σ;
  NormalCDF := fun μ σ x => if Rle_dec μ x then 1 else 0;
  NormalQtl := fun μ σ p => μ + σ * (p - 0.5);
  NormalQtlFor := fun μ σ p => μ + σ * (p - 0.5);
  GammaPDF := fun shape scale x => exp (- x / scale);
  GammaCDF := fun shape scale x => 1 - exp (- x / scale);
  GammaQtl := fun shape scale p => shape * scale * p;
  GammaNext := fun shape scale g => (shape * scale, S g);
  StudentsTQtl := fun nu p => p - 0.5
|}.

(** ** Properties of [bayes/poisson.go] *)

Section PoissonFacts.

Context {D : Dst}.

Lemma data_guard_passes (sumK n : Z) :
  (0 <= sumK)%Z -> (0 < n)%Z ->
  ((sumK <? 0)%Z || (n <=? 0)%Z)%bool = false.
Proof.
  intros HK Hn.
  apply orb_false_iff; split.
  - now apply Z.ltb_ge.
  - now apply Z.leb_gt.
Qed.

Ltac pass_guards :=
  rewrite data_guard_passes by assumption;
  repeat match goal with
         | |- context [Rlt_dec ?a 0] =>
             destruct (Rlt_dec a 0); [exfalso; lra |]
         end.

Ltac same_gamma_args :=
  cbv zeta; unfold posterior_shape, posterior_rate, float64;
  match goal with
  | |- Ok (?G ?a (1 / ?b)) = Ok (?G ?a' (1 / ?b')) =>
      replace a' with a by lra; replace b' with b by lra; reflexivity
  | |- Ok (?G ?a (1 / ?b) ?g) = Ok (?G ?a' (1 / ?b') ?g) =>
      replace a' with a by lra; replace b' with b by lra; reflexivity
  end.

(** The quantile function of the Gamma-prior posterior, for valid inputs. *)
Lemma PoissonLambdaQtlGPri_ok (sumK n : Z) (r v : R) :
  (0 <= sumK)%Z -> (0 < n)%Z -> 0 <= r -> 0 <= v ->
  PoissonLambdaQtlGPri sumK n r v
  = Ok (GammaQtl (r + float64 sumK) (1 / (v + float64 n))).
Proof.
  intros HK Hn Hr Hv. unfold PoissonLambdaQtlGPri.
  pass_guards. reflexivity.
Qed.

(** C1.  For [sumK >= 0], [n > 0] (and [r >= 0], [v >= 0] on the Gamma-prior
    path) every posterior accessor -- PDF, CDF, quantile and random variate,
    under the flat, Jeffreys and Gamma priors -- returns the Gamma primitive
    of the same kind at shape [r_prior + sumK] and scale
    [1 / (v_prior + n)], where [(r_prior, v_prior)] is [(1, 0)], [(0.5, 0)]
    or the caller's [(r, v)]. *)
Theorem Poisson_accessors_delegate_to_Gamma
  (sumK n : Z) (r v : R) (g : Rng) :
  (0 <= sumK)%Z -> (0 < n)%Z -> 0 <= r -> 0 <= v ->
  let shape pr := posterior_shape (prior_shape pr) sumK in
  let scale pr := 1 / posterior_rate (prior_rate pr) n in
  (PoissonLambdaPDFFPri sumK n
     = Ok (GammaPDF (shape FlatPrior) (scale FlatPrior))
   /\ PoissonLambdaPDFJPri sumK n
     = Ok (GammaPDF (shape JeffreysPrior) (scale JeffreysPrior))
   /\ PoissonLambdaPDFGPri sumK n r v
     = Ok (GammaPDF (shape (GammaPrior r v)) (scale (GammaPrior r v))))
  /\ (PoissonLambdaCDFFPri sumK n
     = Ok (GammaCDF (shape FlatPrior) (scale FlatPrior))
   /\ PoissonLambdaCDFJPri sumK n
     = Ok (GammaCDF (shape JeffreysPrior) (scale JeffreysPrior))
   /\ PoissonLambdaCDFGPri sumK n r v
     = Ok (GammaCDF (shape (GammaPrior r v)) (scale (GammaPrior r v))))
  /\ (PoissonLambdaQtlFPri sumK n
     = Ok (GammaQtl (shape FlatPrior) (scale FlatPrior))
   /\ PoissonLambdaQtlJPri sumK n
     = Ok (GammaQtl (shape JeffreysPrior) (scale JeffreysPrior))
   /\ PoissonLambdaQtlGPri sumK n r v
     = Ok (GammaQtl (shape (GammaPrior r v)) (scale (GammaPrior r v))))
  /\ (PoissonLambdaNextFPri sumK n g
     = Ok (GammaNext (shape FlatPrior) (scale FlatPrior) g)
   /\ PoissonLambdaNextJPri sumK n g
     = Ok (GammaNext (shape JeffreysPrior) (scale JeffreysPrior) g)
   /\ PoissonLambdaNextGPri sumK n r v g
     = Ok (GammaNext (shape (GammaPrior r v)) (scale (GammaPrior r v)) g)).
Proof.
  intros HK Hn Hr Hv shape scale. subst shape scale. cbn [prior_shape prior_rate].
  repeat split.
  all: unfold PoissonLambdaPDFFPri, PoissonLambdaPDFJPri, PoissonLambdaPDFGPri,
         PoissonLambdaCDFFPri, PoissonLambdaCDFJPri, PoissonLambdaCDFGPri,
         PoissonLambdaQtlFPri, PoissonLambdaQtlJPri, PoissonLambdaQtlGPri,
         PoissonLambdaNextFPri, PoissonLambdaNextJPri, PoissonLambdaNextGPri.
  all: pass_guards; same_gamma_args.
Qed.

(** C8.  For valid inputs the credible interval is
    [[qf (α/2), qf (1 - α/2)]] for the posterior quantile function [qf], and
    the two-sided test rejects exactly when [λ0] lies strictly outside that
    interval. *)
Theorem PoissonLambdaTwoSidedTst_rejects_iff_outside_CrI
  (sumK n : Z) (r v α λ0 : R) :
  (0 <= sumK)%Z -> (0 < n)%Z -> 0 <= r -> 0 <= v ->
  exists (qf : R -> R) (lo hi : R) (reject : bool),
    PoissonLambdaQtlGPri sumK n r v = Ok qf
    /\ lo = qf (α / 2) /\ hi = qf (1 - α / 2)
    /\ PoissonLambdaCrIGPri sumK n r v α = Ok (lo, hi)
    /\ PoissonLambdaTwoSidedTst sumK n r v α λ0 = Ok reject
    /\ (reject = true <-> λ0 < lo \/ hi < λ0).
Proof.
  intros HK Hn Hr Hv.
  pose proof (PoissonLambdaQtlGPri_ok HK Hn Hr Hv) as Hq.
  set (qf := GammaQtl (r + float64 sumK) (1 / (v + float64 n))) in Hq.
  exists qf, (qf (α / 2)), (qf (1 - α / 2)).
  unfold PoissonLambdaTwoSidedTst, PoissonLambdaCrIGPri.
  rewrite Hq. cbn [bind].
  destruct (Rlt_dec λ0 (qf (α / 2))) as [Hlo | Hlo].
  - exists true. repeat split; auto.
  - destruct (Rgt_dec λ0 (qf (1 - α / 2))) as [Hhi | Hhi].
    + exists true. repeat split; auto.
    + exists false. repeat split; auto.
      * discriminate.
      * intros [H | H]; [contradiction | exfalso; apply Hhi; exact H].
Qed.

(** [-n] on an [int64] is the mathematical opposite, except at the least
    [int64], which it leaves unchanged. *)
Lemma neg64_opp (n : Z) :
  (min_int64 < n <= max_int64)%Z -> neg64 n = (- n)%Z.
Proof.
  unfold neg64, wrap64, min_int64, max_int64. intros Hn.
  rewrite Z.mod_small by lia. lia.
Qed.

Lemma neg64_min_int64 : neg64 min_int64 = min_int64.
Proof. reflexivity. Qed.

(** C10, as amended.  For every [sumK] and [λ] and every [int64] [n] other
    than the least one, the likelihood accessor returns
    [λ * sumK * exp (- n * λ)].  Where the exponential neither overflows nor
    underflows, [0 <= n * λ <= 700], this value is linear in [sumK], it is
    [0] when [sumK = 0], and so it is not the textbook likelihood
    [λ ^ sumK * exp (- n * λ)], which is positive there. *)
Theorem PoissonLambdaLike_formula (sumK n : Z) (λ : R) :
  (min_int64 < n <= max_int64)%Z ->
  PoissonLambdaLike sumK n λ = λ * IZR sumK * exp (- IZR n * λ)
  /\ (0 <= IZR n * λ <= 700 ->
      (forall k : Z,
          PoissonLambdaLike (sumK + k) n λ
          = PoissonLambdaLike sumK n λ + PoissonLambdaLike k n λ)
      /\ (forall c : Z,
            PoissonLambdaLike (c * sumK) n λ
            = IZR c * PoissonLambdaLike sumK n λ)
      /\ PoissonLambdaLike 0 n λ = 0
      /\ PoissonLambdaLike 0 n λ <> λ ^ 0 * exp (- IZR n * λ)).
Proof.
  intros Hn. unfold PoissonLambdaLike, float64.
  rewrite (neg64_opp Hn), opp_IZR.
  split; [reflexivity |]. intros _. split; [| split; [| split]].
  - intros k. rewrite plus_IZR. ring.
  - intros c. rewrite mult_IZR. ring.
  - ring.
  - rewrite Rmult_0_r, Rmult_0_l. cbn [pow]. rewrite Rmult_1_l.
    apply Rlt_not_eq, exp_pos.
Qed.

(** C6.  The posterior-mean function divides by the constant [1.0]: it
    returns [sumK + 1] whatever [n], [r] and [v] are.  For [sumK = 10],
    [n = 5] under the flat prior it returns [11], not the Gamma posterior
    mean [shape / rate = 11 / 5]. *)
Theorem PoissonLambdaPostMean_divides_by_one :
  (forall (sumK n : Z) (r v : R),
      PoissonLambdaPostMean sumK n r v = IZR sumK + 1)
  /\ PoissonLambdaPostMean 10 5 1 0 = 11
  /\ posterior_shape (prior_shape FlatPrior) 10
     / posterior_rate (prior_rate FlatPrior) 5 = 11 / 5
  /\ PoissonLambdaPostMean 10 5 1 0
     <> posterior_shape (prior_shape FlatPrior) 10
        / posterior_rate (prior_rate FlatPrior) 5.
Proof.
  unfold PoissonLambdaPostMean, posterior_shape, posterior_rate, float64.
  cbn [prior_shape prior_rate].
  repeat split; try intros; lra.
Qed.

Lemma data_guard_iff (sumK n : Z) :
  ((sumK <? 0)%Z || (n <=? 0)%Z)%bool = true <-> (sumK < 0)%Z \/ (n <= 0)%Z.
Proof.
  rewrite orb_true_iff, Z.ltb_lt, Z.leb_le. reflexivity.
Qed.

Ltac panic_cases :=
  unfold is_panic;
  match goal with
  | |- context [((?k <? 0)%Z || (?n <=? 0)%Z)%bool] =>
      let E := fresh "E" in
      destruct ((k <? 0)%Z || (n <=? 0)%Z)%bool eqn:E;
      [ apply data_guard_iff in E
      | assert (~ ((k < 0)%Z \/ (n <= 0)%Z))
          by (rewrite <- data_guard_iff, E; discriminate) ]
  end;
  repeat match goal with
         | |- context [Rlt_dec ?a 0] => destruct (Rlt_dec a 0)
         end;
  (split;
   [ intros [msg Hmsg]; try discriminate Hmsg; tauto
   | intros Hbad; try (eexists; reflexivity); exfalso; tauto ]).

(** The accessors fail exactly on the inputs their guards name: the flat and
    Jeffreys variants when [sumK < 0] or [n <= 0], the Gamma-prior variants
    when moreover [r < 0] or [v < 0]. *)
Theorem Poisson_accessors_panic_iff (sumK n : Z) (r v : R) (g : Rng) :
  let bad := (sumK < 0)%Z \/ (n <= 0)%Z in
  let badG := ((sumK < 0)%Z \/ (n <= 0)%Z) \/ r < 0 \/ v < 0 in
  ((is_panic (PoissonLambdaPDFFPri sumK n) <-> bad)
   /\ (is_panic (PoissonLambdaPDFJPri sumK n) <-> bad)
   /\ (is_panic (PoissonLambdaPDFGPri sumK n r v) <-> badG))
  /\ ((is_panic (PoissonLambdaCDFFPri sumK n) <-> bad)
   /\ (is_panic (PoissonLambdaCDFJPri sumK n) <-> bad)
   /\ (is_panic (PoissonLambdaCDFGPri sumK n r v) <-> badG))
  /\ ((is_panic (PoissonLambdaQtlFPri sumK n) <-> bad)
   /\ (is_panic (PoissonLambdaQtlJPri sumK n) <-> bad)
   /\ (is_panic (PoissonLambdaQtlGPri sumK n r v) <-> badG))
  /\ ((is_panic (PoissonLambdaNextFPri sumK n g) <-> bad)
   /\ (is_panic (PoissonLambdaNextJPri sumK n g) <-> bad)
   /\ (is_panic (PoissonLambdaNextGPri sumK n r v g) <-> badG)).
Proof.
  intros bad badG. subst bad badG.
  unfold PoissonLambdaPDFFPri, PoissonLambdaPDFJPri, PoissonLambdaPDFGPri,
         PoissonLambdaCDFFPri, PoissonLambdaCDFJPri, PoissonLambdaCDFGPri,
         PoissonLambdaQtlFPri, PoissonLambdaQtlJPri, PoissonLambdaQtlGPri,
         PoissonLambdaNextFPri, PoissonLambdaNextJPri, PoissonLambdaNextGPri.
  repeat match goal with |- _ /\ _ => split end; panic_cases.
Qed.

(** For valid inputs the one-sided test rejects exactly when the posterior
    CDF at [λ0] is below [α], and the odds are [p0 / (1 - p0)] for the same
    [p0]. *)
Theorem PoissonLambdaOneSidedTst_rejects_iff_CDF_below
  (sumK n : Z) (r v α λ0 : R) :
  (0 <= sumK)%Z -> (0 < n)%Z -> 0 <= r -> 0 <= v ->
  exists (cdf : R -> R) (reject : bool),
    PoissonLambdaCDFGPri sumK n r v = Ok cdf
    /\ PoissonLambdaOneSidedTst sumK n r v α λ0 = Ok reject
    /\ (reject = true <-> cdf λ0 < α)
    /\ PoissonLambdaOneSidedOdds sumK n r v λ0
       = Ok (cdf λ0 / (1 - cdf λ0)).
Proof.
  intros HK Hn Hr Hv.
  assert (Hc : PoissonLambdaCDFGPri sumK n r v
               = Ok (GammaCDF (r + float64 sumK) (1 / (v + float64 n)))).
  { unfold PoissonLambdaCDFGPri. pass_guards. reflexivity. }
  set (cdf := GammaCDF (r + float64 sumK) (1 / (v + float64 n))) in Hc.
  unfold PoissonLambdaOneSidedTst, PoissonLambdaOneSidedOdds.
  rewrite Hc. cbn [bind].
  exists cdf. destruct (Rlt_dec (cdf λ0) α) as [Hlt | Hge].
  - exists true. split; [reflexivity |]. split; [reflexivity |].
    split; [tauto | reflexivity].
  - exists false. split; [reflexivity |]. split; [reflexivity |].
    split; [| reflexivity]. split; [discriminate | contradiction].
Qed.

(** For valid inputs the interquartile range is the posterior quantile at
    0.75 minus the posterior quantile at 0.25. *)
Theorem PoissonLambdaIQR_quartiles (sumK n : Z) (r v : R) :
  (0 <= sumK)%Z -> (0 < n)%Z -> 0 <= r -> 0 <= v ->
  exists qf : R -> R,
    PoissonLambdaQtlGPri sumK n r v = Ok qf
    /\ PoissonLambdaIQR sumK n r v = Ok (qf 0.75 - qf 0.25).
Proof.
  intros HK Hn Hr Hv.
  pose proof (PoissonLambdaQtlGPri_ok HK Hn Hr Hv) as Hq.
  eexists. split; [exact Hq |].
  unfold PoissonLambdaIQR. rewrite Hq. reflexivity.
Qed.

(** The flat-prior and Jeffreys-prior accessors are the Gamma-prior
    accessors at [(r, v) = (1, 0)] and [(0.5, 0)], on every input, the failing
    ones included. *)
Theorem Poisson_flat_Jeffreys_are_Gamma_priors (sumK n : Z) (g : Rng) :
  (PoissonLambdaPDFFPri sumK n = PoissonLambdaPDFGPri sumK n 1 0
   /\ PoissonLambdaPDFJPri sumK n = PoissonLambdaPDFGPri sumK n 0.5 0)
  /\ (PoissonLambdaCDFFPri sumK n = PoissonLambdaCDFGPri sumK n 1 0
   /\ PoissonLambdaCDFJPri sumK n = PoissonLambdaCDFGPri sumK n 0.5 0)
  /\ (PoissonLambdaQtlFPri sumK n = PoissonLambdaQtlGPri sumK n 1 0
   /\ PoissonLambdaQtlJPri sumK n = PoissonLambdaQtlGPri sumK n 0.5 0)
  /\ (PoissonLambdaNextFPri sumK n g = PoissonLambdaNextGPri sumK n 1 0 g
   /\ PoissonLambdaNextJPri sumK n g = PoissonLambdaNextGPri sumK n 0.5 0 g).
Proof.
  unfold PoissonLambdaPDFFPri, PoissonLambdaPDFJPri, PoissonLambdaPDFGPri,
         PoissonLambdaCDFFPri, PoissonLambdaCDFJPri, PoissonLambdaCDFGPri,
         PoissonLambdaQtlFPri, PoissonLambdaQtlJPri, PoissonLambdaQtlGPri,
         PoissonLambdaNextFPri, PoissonLambdaNextJPri, PoissonLambdaNextGPri.
  destruct ((sumK <? 0)%Z || (n <=? 0)%Z)%bool.
  - repeat split.
  - destruct (Rlt_dec 1 0); [exfalso; lra |].
    destruct (Rlt_dec 0.5 0); [exfalso; lra |].
    destruct (Rlt_dec 0 0); [exfalso; lra |].
    repeat match goal with |- _ /\ _ => split end; same_gamma_args.
Qed.

Lemma bind_panic_iff (A B : Type) (m : result A) (k : A -> result B) :
  (forall a, ~ is_panic (k a)) -> (is_panic (bind m k) <-> is_panic m).
Proof.
  intros Hk. destruct m as [a | msg]; cbn [bind].
  - split; [intros H; now apply Hk in H | intros [msg Hmsg]; discriminate Hmsg].
  - split; intros _; eexists; reflexivity.
Qed.

Lemma Ok_not_panic (A : Type) (a : A) : ~ is_panic (Ok a).
Proof. intros [msg Hmsg]. discriminate Hmsg. Qed.

Lemma PoissonLambdaQtlGPri_panic_iff (sumK n : Z) (r v : R) :
  is_panic (PoissonLambdaQtlGPri sumK n r v)
  <-> ((sumK < 0)%Z \/ (n <= 0)%Z) \/ r < 0 \/ v < 0.
Proof. unfold PoissonLambdaQtlGPri. panic_cases. Qed.

Lemma PoissonLambdaCDFGPri_panic_iff (sumK n : Z) (r v : R) :
  is_panic (PoissonLambdaCDFGPri sumK n r v)
  <-> ((sumK < 0)%Z \/ (n <= 0)%Z) \/ r < 0 \/ v < 0.
Proof. unfold PoissonLambdaCDFGPri. panic_cases. Qed.

(** The interquartile range, the credible interval, both tests and the odds
    fail on exactly the inputs on which the Gamma-prior accessors fail; on
    every other input they return a value. *)
Theorem Poisson_derived_products_panic_iff (sumK n : Z) (r v α λ0 : R) :
  let badG := ((sumK < 0)%Z \/ (n <= 0)%Z) \/ r < 0 \/ v < 0 in
  (is_panic (PoissonLambdaIQR sumK n r v) <-> badG)
  /\ (is_panic (PoissonLambdaCrIGPri sumK n r v α) <-> badG)
  /\ (is_panic (PoissonLambdaOneSidedTst sumK n r v α λ0) <-> badG)
  /\ (is_panic (PoissonLambdaOneSidedOdds sumK n r v λ0) <-> badG)
  /\ (is_panic (PoissonLambdaTwoSidedTst sumK n r v α λ0) <-> badG).
Proof.
  intros badG. subst badG.
  assert (Hci : is_panic (PoissonLambdaCrIGPri sumK n r v α)
                <-> ((sumK < 0)%Z \/ (n <= 0)%Z) \/ r < 0 \/ v < 0).
  { rewrite <- PoissonLambdaQtlGPri_panic_iff. unfold PoissonLambdaCrIGPri.
    apply bind_panic_iff. intros qf. apply Ok_not_panic. }
  split; [| split; [exact Hci | split; [| split]]].
  - rewrite <- PoissonLambdaQtlGPri_panic_iff. unfold PoissonLambdaIQR.
    apply bind_panic_iff. intros qf. apply Ok_not_panic.
  - rewrite <- PoissonLambdaCDFGPri_panic_iff. unfold PoissonLambdaOneSidedTst.
    apply bind_panic_iff. intros cdf. apply Ok_not_panic.
  - rewrite <- PoissonLambdaCDFGPri_panic_iff. unfold PoissonLambdaOneSidedOdds.
    apply bind_panic_iff. intros cdf. apply Ok_not_panic.
  - rewrite <- Hci. unfold PoissonLambdaTwoSidedTst.
    apply bind_panic_iff. intros [low high]. apply Ok_not_panic.
Qed.

(** For [v > 0] the mean squared error is the variance plus the squared
    bias, so it is at least the variance, and equal to it exactly when the
    prior mean matches: [r = v * λ]. *)
Theorem PoissonLambdaMSE_ge_variance (r v λ : R) :
  0 < v ->
  PoissonLambdaMSE r v λ
  = PoissonLambdaPostVar r v λ
    + PoissonLambdaPostMeanBias r v λ * PoissonLambdaPostMeanBias r v λ
  /\ PoissonLambdaPostVar r v λ <= PoissonLambdaMSE r v λ
  /\ (PoissonLambdaMSE r v λ = PoissonLambdaPostVar r v λ <-> r = v * λ).
Proof.
  intros Hv. unfold PoissonLambdaMSE. cbv zeta.
  set (b := PoissonLambdaPostMeanBias r v λ).
  set (var := PoissonLambdaPostVar r v λ).
  assert (Hb : 0 <= b * b) by apply Rle_0_sqr.
  split; [ring |]. split; [lra |].
  assert (Hbias : b = 0 <-> r = v * λ).
  { unfold b, PoissonLambdaPostMeanBias. split.
    - intros H0.
      assert (Hnum : r - v * λ = (r - v * λ) / (v + 1) * (v + 1))
        by (field; lra).
      rewrite H0 in Hnum. lra.
    - intros ->. unfold Rdiv. ring. }
  rewrite <- Hbias. split.
  - intros H. assert (Hsq : b * b = 0) by lra.
    apply Rmult_integral in Hsq. tauto.
  - intros ->. ring.
Qed.

Lemma main_loop_ok (x n : Z) (r v : R) (qtl : R -> R)
  (ps : list R) (out : list line) :
  PoissonLambdaQtlGPri x n r v = Ok qtl ->
  main_loop x n r v ps out
  = (out ++ map (fun p => Row p (qtl p)) ps ++ [Footer], None).
Proof.
  intros Hq. revert out.
  induction ps as [| p ps IH]; intros out; cbn [main_loop map app].
  - reflexivity.
  - rewrite Hq, IH, <- app_assoc. reflexivity.
Qed.

(** The program, once the four values are scanned.  With a negative [r] or
    [v] it panics before it prints anything; with [x < 0] or [n <= 0] it
    prints the header and then panics with the message of the library; on
    every other input it prints the header, one row per probability of [pr],
    in order, each with the posterior quantile at that probability, and the
    closing line. *)
Theorem main_prints_quantile_table (x n : Z) (r v : R) :
  (r < 0 \/ v < 0 -> main x n r v = ([], Some bad_gamma_prior))
  /\ (0 <= r -> 0 <= v -> (x < 0)%Z \/ (n <= 0)%Z ->
      main x n r v = ([Header], Some bad_data))
  /\ (0 <= r -> 0 <= v -> (0 <= x)%Z -> (0 < n)%Z ->
      main x n r v
      = (Header
           :: map (fun p =>
                     Row p (GammaQtl (r + float64 x) (1 / (v + float64 n)) p))
                pr
           ++ [Footer],
         None)).
Proof.
  unfold main. split; [| split].
  - intros [Hr | Hv].
    + destruct (Rlt_dec r 0); [reflexivity | contradiction].
    + destruct (Rlt_dec r 0); [reflexivity |].
      destruct (Rlt_dec v 0); [reflexivity | contradiction].
  - intros Hr Hv Hbad.
    destruct (Rlt_dec r 0); [exfalso; lra |].
    destruct (Rlt_dec v 0); [exfalso; lra |].
    apply data_guard_iff in Hbad.
    unfold pr. cbn [main_loop]. unfold PoissonLambdaQtlGPri.
    now rewrite Hbad.
  - intros Hr Hv Hx Hn.
    destruct (Rlt_dec r 0); [exfalso; lra |].
    destruct (Rlt_dec v 0); [exfalso; lra |].
    erewrite main_loop_ok by (apply PoissonLambdaQtlGPri_ok; assumption).
    reflexivity.
Qed.

End PoissonFacts.

(** The delegation theorem at [sumK = 10], [n = 5], prior [Gamma(1, 0)]. *)
Lemma Poisson_accessors_delegate_to_Gamma_witness :
  PoissonLambdaQtlGPri (D := DstExample) 10 5 1 0
  = Ok (GammaQtl (Dst := DstExample)
          (posterior_shape 1 10) (1 / posterior_rate 0 5)).
Proof.
  assert (H1 : (0 <= 10)%Z) by (intro H; discriminate H).
  assert (H2 : (0 < 5)%Z) by reflexivity.
  assert (H3 : 0 <= 1) by apply Rle_0_1.
  assert (H4 : 0 <= 0) by apply Rle_refl.
  exact (proj2 (proj2 (proj1 (proj2 (proj2
    (@Poisson_accessors_delegate_to_Gamma DstExample 10 5 1 0 0%nat
       H1 H2 H3 H4)))))).
Defined.

(** The two-sided test at [sumK = 10], [n = 5], prior [Gamma(1, 0)],
    [α = 0.05], [λ0 = 2]. *)
Lemma PoissonLambdaTwoSidedTst_rejects_iff_outside_CrI_witness :
  exists (qf : R -> R) (lo hi : R) (reject : bool),
    PoissonLambdaQtlGPri (D := DstExample) 10 5 1 0 = Ok qf
    /\ lo = qf (0.05 / 2) /\ hi = qf (1 - 0.05 / 2)
    /\ PoissonLambdaCrIGPri (D := DstExample) 10 5 1 0 0.05 = Ok (lo, hi)
    /\ PoissonLambdaTwoSidedTst (D := DstExample) 10 5 1 0 0.05 2 = Ok reject
    /\ (reject = true <-> 2 < lo \/ hi < 2).
Proof.
  assert (H1 : (0 <= 10)%Z) by (intro H; discriminate H).
  assert (H2 : (0 < 5)%Z) by reflexivity.
  assert (H3 : 0 <= 1) by apply Rle_0_1.
  assert (H4 : 0 <= 0) by apply Rle_refl.
  exact (PoissonLambdaTwoSidedTst_rejects_iff_outside_CrI
           (D := DstExample) 0.05 2 H1 H2 H3 H4).
Defined.

(** The likelihood at [sumK = 3], [n = 2], [λ = 1], where [n * λ = 2]. *)
Lemma PoissonLambdaLike_formula_witness :
  PoissonLambdaLike 3 2 1 = 1 * IZR 3 * exp (- IZR 2 * 1)
  /\ PoissonLambdaLike 0 2 1 = 0.
Proof.
  assert (H : (min_int64 < 2 <= max_int64)%Z)
    by (split; [reflexivity | intro C; discriminate C]).
  assert (Hexp : 0 <= IZR 2 * 1 <= 700) by lra.
  destruct (PoissonLambdaLike_formula 3 1 H) as [Hformula Hrest].
  destruct (Hrest Hexp) as [_ [_ [Hzero _]]].
  split; [exact Hformula | exact Hzero].
Defined.

(** C10, the claim as stated fails in two places.  At the least [int64] the
    negation [-n] wraps to [n] itself, and the accessor returns
    [λ * sumK * exp (n * λ)]; and the value is not linear in [λ]: doubling
    [λ = 1] at [sumK = 1], [n = 1] does not double it. *)
Lemma PoissonLambdaLike_min_int64 :
  (PoissonLambdaLike 1 min_int64 1 = 1 * IZR 1 * exp (IZR min_int64 * 1)
   /\ PoissonLambdaLike 1 min_int64 1
      <> 1 * IZR 1 * exp (- IZR min_int64 * 1))
  /\ PoissonLambdaLike 1 1 (2 * 1) <> 2 * PoissonLambdaLike 1 1 1.
Proof.
  assert (E : PoissonLambdaLike 1 min_int64 1
              = 1 * IZR 1 * exp (IZR min_int64 * 1)).
  { unfold PoissonLambdaLike, float64. rewrite neg64_min_int64. reflexivity. }
  split; [split; [exact E |] |].
  - rewrite E. intros H.
    assert (Hlt : IZR min_int64 * 1 < - IZR min_int64 * 1).
    { assert (Hneg : IZR min_int64 < 0) by (apply IZR_lt; reflexivity). lra. }
    apply exp_increasing in Hlt. lra.
  - unfold PoissonLambdaLike, float64.
    replace (neg64 1) with (-1)%Z by reflexivity.
    intros H.
    assert (Hlt : -1 * (2 * 1) < -1 * 1) by lra.
    apply exp_increasing in Hlt. lra.
Qed.

(** ** Properties of [bayes/normal_mu.go] *)

Section NormalMuFacts.

Context {D : Dst}.

Lemma Rsum_cons (x : R) (l : list R) : Rsum (x :: l) = x + Rsum l.
Proof. reflexivity. Qed.

Lemma Rsum_map_div (c : R) (l : list R) :
  Rsum (map (fun x => x / c) l) = Rsum l / c.
Proof.
  induction l as [| x l IH]; cbn [map].
  - unfold Rsum; cbn. unfold Rdiv. ring.
  - rewrite !Rsum_cons, IH. unfold Rdiv. ring.
Qed.

Lemma Rsum_nonneg (l : list R) : Forall (Rle 0) l -> 0 <= Rsum l.
Proof.
  induction 1 as [| x l Hx _ IH].
  - apply Rle_refl.
  - rewrite Rsum_cons. lra.
Qed.

Lemma Rsum_pos (l : list R) :
  Forall (Rle 0) l -> Exists (Rlt 0) l -> 0 < Rsum l.
Proof.
  intros Hall Hex. induction Hex as [x l Hx | x l _ IH].
  - inversion Hall as [| ? ? _ Hl]; subst.
    rewrite Rsum_cons. pose proof (Rsum_nonneg Hl). lra.
  - inversion Hall as [| ? ? Hx Hl]; subst.
    rewrite Rsum_cons. specialize (IH Hl). lra.
Qed.

Lemma normalized_sum (m : list R) : Rsum m <> 0 -> Rsum (normalized m) = 1.
Proof.
  intros Hm. unfold normalized. rewrite Rsum_map_div. now field.
Qed.

Lemma weighted_nonneg (like : R -> R) (μ μPri : list R) :
  (forall x, 0 <= like x) -> Forall (Rle 0) μPri ->
  Forall (Rle 0) (weighted like μ μPri).
Proof.
  intros Hlike Hpri. revert μ.
  induction Hpri as [| pri μPri Hp _ IH]; intros [| μi μ]; cbn;
    try constructor.
  - cbn. apply Rmult_le_pos; [exact Hp | apply Hlike].
  - apply IH.
Qed.

Lemma weighted_length (like : R -> R) (μ μPri : list R) :
  length μPri = length μ -> length (weighted like μ μPri) = length μ.
Proof.
  intros Hlen. unfold weighted.
  rewrite length_map, length_combine, Hlen. apply Nat.min_id.
Qed.

(** The first loop of the single-observation update leaves the weighted
    masses in [post] and has added their total to [sum]. *)
Lemma NormMuSinglePMFDPri_loop_spec (y σ : R) (μ μPri : list R) (sum : R) :
  NormMuSinglePMFDPri_loop y σ μ μPri sum
  = (weighted (single_likelihood y σ) μ μPri,
     sum + Rsum (weighted (single_likelihood y σ) μ μPri)).
Proof.
  revert μPri sum.
  induction μ as [| μi μ IH]; intros [| pri μPri] sum;
    cbn [NormMuSinglePMFDPri_loop];
    try (unfold weighted, Rsum; cbn; f_equal; ring).
  rewrite IH. unfold weighted. cbn [combine map fst snd].
  rewrite Rsum_cons. unfold single_likelihood.
  f_equal. ring.
Qed.

Lemma sample_exponent (n : Z) (ȳ σ μi : R) :
  0 < σ ->
  (-1) / (2 * (σ * σ) / float64 n) * (ȳ - μi) * (ȳ - μi)
  = - (IZR n * ((ȳ - μi) * (ȳ - μi))) / (2 * (σ * σ)).
Proof.
  intros Hσ. unfold float64.
  destruct (Z.eq_dec n 0) as [-> | Hn].
  - unfold Rdiv. rewrite Rinv_0, Rmult_0_r, Rinv_0. ring.
  - assert (IZR n <> 0) by now apply not_0_IZR.
    field. split; lra.
Qed.

(** The same for the first loop of the sample update. *)
Lemma NormMuPMFDPri_loop_spec (n : Z) (ȳ σ : R) (μ μPri : list R) (sum : R) :
  0 < σ ->
  NormMuPMFDPri_loop (float64 n) ȳ σ μ μPri sum
  = (weighted (sample_likelihood n ȳ σ) μ μPri,
     sum + Rsum (weighted (sample_likelihood n ȳ σ) μ μPri)).
Proof.
  intros Hσ. revert μPri sum.
  induction μ as [| μi μ IH]; intros [| pri μPri] sum;
    cbn [NormMuPMFDPri_loop];
    try (unfold weighted, Rsum; cbn; f_equal; ring).
  rewrite IH. unfold weighted. cbn [combine map fst snd].
  rewrite Rsum_cons, (sample_exponent n ȳ μi Hσ).
  unfold sample_likelihood.
  f_equal. ring.
Qed.

Lemma length_guard_passes (μ μPri : list R) :
  length μPri = length μ -> negb (length μPri =? length μ)%nat = false.
Proof. intros ->. now rewrite Nat.eqb_refl. Qed.

(** C4.  For arrays of equal length, [σ > 0] and non-negative prior masses,
    each discrete-prior update, as soon as one candidate has a positive
    weighted mass [priorMass_i * L_i], returns the weighted masses divided by
    their total; the returned masses sum to 1. *)
Theorem discrete_posterior_normalized
  (y : R) (nObs : Z) (ȳ σ : R) (μ μPri : list R) :
  length μPri = length μ -> 0 < σ ->
  Forall (Rle 0) μPri ->
  (Exists (Rlt 0) (weighted (single_likelihood y σ) μ μPri) ->
   exists post,
     NormMuSinglePMFDPri y σ μ μPri = Ok post
     /\ post = normalized (weighted (single_likelihood y σ) μ μPri)
     /\ length post = length μ
     /\ Rsum post = 1)
  /\ (Exists (Rlt 0) (weighted (sample_likelihood nObs ȳ σ) μ μPri) ->
      exists post,
        NormMuPMFDPri nObs ȳ σ μ μPri = Ok post
        /\ post = normalized (weighted (sample_likelihood nObs ȳ σ) μ μPri)
        /\ length post = length μ
        /\ Rsum post = 1).
Proof.
  intros Hlen Hσ Hpri. split.
  - intros Hsingle.
    set (m := weighted (single_likelihood y σ) μ μPri) in *.
    assert (Hm : 0 < Rsum m).
    { apply Rsum_pos; [| exact Hsingle].
      apply weighted_nonneg; [| exact Hpri].
      intros x. apply ZPDFAt_nonneg. }
    exists (normalized m). repeat split.
    + unfold NormMuSinglePMFDPri.
      rewrite (length_guard_passes _ _ Hlen), NormMuSinglePMFDPri_loop_spec.
      fold m. unfold normalized.
      replace (0.0 + Rsum m) with (Rsum m) by lra. reflexivity.
    + unfold normalized. rewrite length_map. now apply weighted_length.
    + apply normalized_sum. lra.
  - intros Hsample.
    set (m := weighted (sample_likelihood nObs ȳ σ) μ μPri) in *.
    assert (Hm : 0 < Rsum m).
    { apply Rsum_pos; [| exact Hsample].
      apply weighted_nonneg; [| exact Hpri].
      intros x. left. apply exp_pos. }
    exists (normalized m). repeat split.
    + unfold NormMuPMFDPri.
      rewrite (length_guard_passes _ _ Hlen).
      rewrite (NormMuPMFDPri_loop_spec nObs ȳ μ μPri 0.0 Hσ).
      fold m. unfold normalized.
      replace (0.0 + Rsum m) with (Rsum m) by lra. reflexivity.
    + unfold normalized. rewrite length_map. now apply weighted_length.
    + apply normalized_sum. lra.
Qed.

Lemma sigma_guard_passes (σ : R) (A : Type) (a b : A) :
  0 < σ -> (if Rle_dec σ 0 then a else b) = b.
Proof. intros Hσ. destruct (Rle_dec σ 0); [exfalso; lra | reflexivity]. Qed.

(** With one observation the conjugate update of the single-observation
    quantile is the general one: same posterior mean, same posterior
    variance. *)
Lemma single_posterior_mean (y σ μPri σPri : R) :
  0 < σ -> 0 < σPri ->
  (σ * σ * μPri + σPri * σPri * y) / (σ * σ + σPri * σPri)
  = NormMuPostMean 1 y σ μPri σPri.
Proof.
  intros Hσ HσPri. unfold NormMuPostMean, float64.
  assert (0 < σ * σ) by now apply Rmult_lt_0_compat.
  assert (0 < σPri * σPri) by now apply Rmult_lt_0_compat.
  field. repeat split; lra.
Qed.

Lemma single_posterior_std (σ μPri σPri : R) :
  sqrt ((σ * σ * (σPri * σPri)) / (σ * σ + σPri * σPri))
  = NormMuPostStd 1 σ μPri σPri.
Proof.
  unfold NormMuPostStd, float64. now rewrite Rmult_1_l.
Qed.

Lemma NormMuQtlNPri_unfold (nObs : Z) (ȳ σ μPri σPri p : R) :
  NormMuQtlNPri nObs ȳ σ μPri σPri p
  = NormalQtlFor (NormMuPostMean nObs ȳ σ μPri σPri)
                 (NormMuPostStd nObs σ μPri σPri) p.
Proof. reflexivity. Qed.

(** C5.  For [σ > 0] and [σPri > 0] the single-observation Normal-prior
    quantile is the sample-based Normal-prior quantile at [nObs = 1] and
    sample mean [y]: both are the Normal quantile at the posterior mean and
    standard deviation of the general formulas evaluated at [n = 1]. *)
Theorem NormMuSingleQtlNPri_is_NormMuQtlNPri_at_one (y σ μPri σPri p : R) :
  0 < σ -> 0 < σPri ->
  NormMuSingleQtlNPri y σ μPri σPri p = Ok (NormMuQtlNPri 1 y σ μPri σPri p)
  /\ NormMuQtlNPri 1 y σ μPri σPri p
     = NormalQtlFor (NormMuPostMean 1 y σ μPri σPri)
                    (NormMuPostStd 1 σ μPri σPri) p.
Proof.
  intros Hσ HσPri. split; [| apply NormMuQtlNPri_unfold].
  unfold NormMuSingleQtlNPri.
  rewrite (sigma_guard_passes _ _ Hσ). cbv zeta.
  rewrite (single_posterior_mean y μPri Hσ HσPri).
  rewrite (single_posterior_std σ μPri σPri).
  now rewrite NormMuQtlNPri_unfold.
Qed.

(** The two guards of the file: [NormMuQtlFPri] and [NormMuSingleQtlNPri]
    panic, before they compute anything, exactly when [σ <= 0]. *)
Lemma NormMu_quantiles_panic_iff_sigma_nonpositive
  (nObs : Z) (y ȳ σ μPri σPri p : R) :
  (is_panic (NormMuQtlFPri nObs ȳ σ p) <-> σ <= 0)
  /\ (is_panic (NormMuSingleQtlNPri y σ μPri σPri p) <-> σ <= 0)
  /\ (σ <= 0 -> NormMuQtlFPri nObs ȳ σ p = Panic bad_sigma)
  /\ (σ <= 0 -> NormMuSingleQtlNPri y σ μPri σPri p = Panic bad_sigma).
Proof.
  unfold NormMuQtlFPri, NormMuSingleQtlNPri, is_panic.
  destruct (Rle_dec σ 0) as [Hσ | Hσ].
  - repeat split; intros; eauto.
  - repeat split; try (intros; contradiction);
      intros [msg Hmsg]; discriminate Hmsg.
Qed.

(** Both discrete-prior updates fail exactly when the two arrays differ in
    length. *)
Theorem discrete_posterior_panics_iff_length_mismatch
  (y : R) (nObs : Z) (ȳ σ : R) (μ μPri : list R) :
  (is_panic (NormMuSinglePMFDPri y σ μ μPri) <-> length μPri <> length μ)
  /\ (is_panic (NormMuPMFDPri nObs ȳ σ μ μPri) <-> length μPri <> length μ).
Proof.
  unfold NormMuSinglePMFDPri, NormMuPMFDPri, is_panic. cbv zeta.
  destruct (NormMuSinglePMFDPri_loop y σ μ μPri 0.0) as [post1 sum1].
  destruct (NormMuPMFDPri_loop (float64 nObs) ȳ σ μ μPri 0.0) as [post2 sum2].
  destruct (Nat.eqb_spec (length μPri) (length μ)) as [Heq | Hne]; cbn [negb].
  - split; (split; [intros [msg Hmsg]; discriminate Hmsg | contradiction]).
  - split; (split; [intros _; exact Hne | intros _; eexists; reflexivity]).
Qed.

(** The credible interval under the Normal prior is the pair of posterior
    quantiles at [α/2] and [1 - α/2]. *)
Theorem NormMuCrINPriKnown_quantiles (nObs : Z) (ȳ σ μPri σPri α : R) :
  NormMuCrINPriKnown nObs ȳ σ μPri σPri α
  = (NormMuQtlNPri nObs ȳ σ μPri σPri (α / 2),
     NormMuQtlNPri nObs ȳ σ μPri σPri (1 - α / 2)).
Proof. reflexivity. Qed.

(** *** The discrete-prior updates in closed form *)

Lemma NormMuSinglePMFDPri_ok (y σ : R) (μ μPri : list R) :
  length μPri = length μ ->
  NormMuSinglePMFDPri y σ μ μPri
  = Ok (normalized (weighted (single_likelihood y σ) μ μPri)).
Proof.
  intros Hlen. unfold NormMuSinglePMFDPri.
  rewrite (length_guard_passes _ _ Hlen), NormMuSinglePMFDPri_loop_spec.
  unfold normalized.
  now replace (0.0 + Rsum (weighted (single_likelihood y σ) μ μPri))
    with (Rsum (weighted (single_likelihood y σ) μ μPri)) by lra.
Qed.

Lemma NormMuPMFDPri_ok (nObs : Z) (ȳ σ : R) (μ μPri : list R) :
  length μPri = length μ -> 0 < σ ->
  NormMuPMFDPri nObs ȳ σ μ μPri
  = Ok (normalized (weighted (sample_likelihood nObs ȳ σ) μ μPri)).
Proof.
  intros Hlen Hσ. unfold NormMuPMFDPri.
  rewrite (length_guard_passes _ _ Hlen).
  rewrite (NormMuPMFDPri_loop_spec nObs ȳ μ μPri 0.0 Hσ).
  unfold normalized.
  now replace (0.0 + Rsum (weighted (sample_likelihood nObs ȳ σ) μ μPri))
    with (Rsum (weighted (sample_likelihood nObs ȳ σ) μ μPri)) by lra.
Qed.

Lemma Rsum_map_mult (c : R) (l : list R) :
  Rsum (map (Rmult c) l) = c * Rsum l.
Proof.
  induction l as [| x l IH]; cbn [map].
  - unfold Rsum; cbn. ring.
  - rewrite !Rsum_cons, IH. ring.
Qed.

Lemma weighted_scale (like : R -> R) (c : R) (μ μPri : list R) :
  weighted like μ (map (Rmult c) μPri) = map (Rmult c) (weighted like μ μPri).
Proof.
  unfold weighted. revert μPri.
  induction μ as [| μi μ IH]; intros [| pri μPri]; cbn [map combine fst snd];
    try reflexivity.
  rewrite IH. f_equal. ring.
Qed.

Lemma normalized_scale (c : R) (m : list R) :
  c <> 0 -> Rsum m <> 0 -> normalized (map (Rmult c) m) = normalized m.
Proof.
  intros Hc Hm. unfold normalized.
  rewrite map_map, Rsum_map_mult.
  apply map_ext. intros x. now field.
Qed.

Lemma le_Rsum (m : list R) (x : R) :
  Forall (Rle 0) m -> In x m -> x <= Rsum m.
Proof.
  intros Hall. induction Hall as [| a m Ha Hm IH]; intros Hin.
  - destruct Hin.
  - rewrite Rsum_cons. pose proof (Rsum_nonneg Hm) as Hs.
    destruct Hin as [-> | Hin]; [lra | specialize (IH Hin); lra].
Qed.

Lemma normalized_unit_interval (m : list R) :
  Forall (Rle 0) m -> 0 < Rsum m ->
  Forall (fun p => 0 <= p <= 1) (normalized m).
Proof.
  intros Hall Hpos. unfold normalized.
  apply Forall_forall. intros p Hp.
  apply in_map_iff in Hp. destruct Hp as [x [<- Hx]].
  pose proof (le_Rsum x Hall Hx) as Hle.
  assert (H0 : 0 <= x) by (rewrite Forall_forall in Hall; now apply Hall).
  split.
  - apply Rmult_le_pos; [exact H0 | left; now apply Rinv_0_lt_compat].
  - apply Rmult_le_reg_r with (Rsum m); [exact Hpos |].
    unfold Rdiv. rewrite Rmult_assoc, Rinv_l by lra. lra.
Qed.

Lemma nth_map_default (A B : Type) (f : A -> B) (l : list A)
  (d : A) (d' : B) (i : nat) :
  f d = d' -> nth i (map f l) d' = f (nth i l d).
Proof. intros <-. apply map_nth. Qed.

Lemma nth_normalized_weighted (like : R -> R) (μ μPri : list R) (i : nat) :
  length μPri = length μ ->
  nth i (normalized (weighted like μ μPri)) 0
  = nth i μPri 0 * like (nth i μ 0) / Rsum (weighted like μ μPri).
Proof.
  intros Hlen. unfold normalized.
  rewrite (nth_map_default _ _ 0) by (unfold Rdiv; ring).
  unfold weighted at 1.
  rewrite (nth_map_default _ _ (0, 0)) by (cbn [fst snd]; ring).
  rewrite combine_nth by (symmetry; exact Hlen).
  reflexivity.
Qed.

(** Whenever the two arrays have the same length -- the empty arrays
    included -- both discrete-prior updates return an array of that
    length. *)
Theorem discrete_posterior_length
  (y : R) (nObs : Z) (ȳ σ : R) (μ μPri : list R) :
  length μPri = length μ -> 0 < σ ->
  (exists post,
      NormMuSinglePMFDPri y σ μ μPri = Ok post /\ length post = length μ)
  /\ (exists post,
      NormMuPMFDPri nObs ȳ σ μ μPri = Ok post /\ length post = length μ).
Proof.
  intros Hlen Hσ. split; eexists; split.
  - now apply NormMuSinglePMFDPri_ok.
  - unfold normalized. rewrite length_map. now apply weighted_length.
  - now apply NormMuPMFDPri_ok.
  - unfold normalized. rewrite length_map. now apply weighted_length.
Qed.

(** The posterior does not depend on the scale of the prior masses: when
    the total weighted mass is not zero, multiplying every prior mass by the
    same [c <> 0] leaves the result of both updates unchanged. *)
Theorem discrete_posterior_prior_scale_invariant
  (c y : R) (nObs : Z) (ȳ σ : R) (μ μPri : list R) :
  c <> 0 -> length μPri = length μ -> 0 < σ ->
  (Rsum (weighted (single_likelihood y σ) μ μPri) <> 0 ->
   NormMuSinglePMFDPri y σ μ (map (Rmult c) μPri)
   = NormMuSinglePMFDPri y σ μ μPri)
  /\ (Rsum (weighted (sample_likelihood nObs ȳ σ) μ μPri) <> 0 ->
      NormMuPMFDPri nObs ȳ σ μ (map (Rmult c) μPri)
      = NormMuPMFDPri nObs ȳ σ μ μPri).
Proof.
  intros Hc Hlen Hσ.
  assert (Hlen' : length (map (Rmult c) μPri) = length μ)
    by now rewrite length_map.
  split; intros Hsum.
  - rewrite (NormMuSinglePMFDPri_ok _ _ _ _ Hlen'),
      (NormMuSinglePMFDPri_ok _ _ _ _ Hlen).
    now rewrite weighted_scale, normalized_scale.
  - rewrite (NormMuPMFDPri_ok _ _ _ _ Hlen' Hσ),
      (NormMuPMFDPri_ok _ _ _ _ Hlen Hσ).
    now rewrite weighted_scale, normalized_scale.
Qed.

(** For arrays of equal length, [σ > 0], non-negative prior masses and at
    least one candidate of positive weighted mass [priorMass_i * L_i], every
    posterior mass of the sample update lies in [[0, 1]], the mass of
    candidate [i] is [priorMass_i * L_i / total], and a candidate of prior
    mass 0 keeps mass 0. *)
Theorem NormMuPMFDPri_masses
  (nObs : Z) (ȳ σ : R) (μ μPri : list R) :
  length μPri = length μ -> 0 < σ ->
  Forall (Rle 0) μPri ->
  Exists (Rlt 0) (weighted (sample_likelihood nObs ȳ σ) μ μPri) ->
  exists post,
    NormMuPMFDPri nObs ȳ σ μ μPri = Ok post
    /\ Forall (fun p => 0 <= p <= 1) post
    /\ (forall i,
          nth i post 0
          = nth i μPri 0 * sample_likelihood nObs ȳ σ (nth i μ 0)
            / Rsum (weighted (sample_likelihood nObs ȳ σ) μ μPri))
    /\ (forall i, nth i μPri 0 = 0 -> nth i post 0 = 0).
Proof.
  intros Hlen Hσ Hpri Hex.
  set (like := sample_likelihood nObs ȳ σ) in *.
  assert (Hlike : forall x, 0 < like x) by (intros x; apply exp_pos).
  assert (Hw : Forall (Rle 0) (weighted like μ μPri)).
  { apply weighted_nonneg; [intros x; left; apply Hlike | exact Hpri]. }
  assert (Hpos : 0 < Rsum (weighted like μ μPri))
    by now apply Rsum_pos.
  exists (normalized (weighted like μ μPri)).
  split; [now apply NormMuPMFDPri_ok |].
  split; [now apply normalized_unit_interval |].
  split.
  - intros i. now apply nth_normalized_weighted.
  - intros i Hi. rewrite nth_normalized_weighted by exact Hlen.
    rewrite Hi. unfold Rdiv. ring.
Qed.

Lemma single_likelihood_std_normal (y σ μi : R) :
  (forall z, ZPDFAt z = std_normal_pdf z) -> 0 < σ ->
  single_likelihood y σ μi = / sqrt (2 * PI) * sample_likelihood 1 y σ μi.
Proof.
  intros Hz Hσ. unfold single_likelihood, sample_likelihood.
  rewrite Hz. unfold std_normal_pdf.
  replace (- ((y - μi) / σ * ((y - μi) / σ)) / 2)
    with (- (1 * ((y - μi) * (y - μi))) / (2 * (σ * σ))) by (field; lra).
  unfold Rdiv. ring.
Qed.

(** When [ZPDFAt] is the standard Normal density, the update for a single
    observation [y] is the update for a sample of size 1 with mean [y]: the
    Gaussian constant cancels in the normalization. *)
Theorem NormMuSinglePMFDPri_is_NormMuPMFDPri_at_one
  (y σ : R) (μ μPri : list R) :
  (forall z, ZPDFAt z = std_normal_pdf z) ->
  length μPri = length μ -> 0 < σ ->
  Rsum (weighted (sample_likelihood 1 y σ) μ μPri) <> 0 ->
  NormMuSinglePMFDPri y σ μ μPri = NormMuPMFDPri 1 y σ μ μPri.
Proof.
  intros Hz Hlen Hσ Hsum.
  rewrite (NormMuSinglePMFDPri_ok _ _ _ _ Hlen),
    (NormMuPMFDPri_ok _ _ _ _ Hlen Hσ).
  f_equal.
  assert (Hk : / sqrt (2 * PI) <> 0).
  { apply Rinv_neq_0_compat, Rgt_not_eq, sqrt_lt_R0.
    generalize PI_RGT_0. lra. }
  rewrite <- normalized_scale
    with (c := / sqrt (2 * PI)) (m := weighted (sample_likelihood 1 y σ) μ μPri)
    by assumption.
  f_equal.
  unfold weighted. rewrite map_map. apply map_ext.
  intros [μi pri]. cbn [fst snd].
  rewrite (single_likelihood_std_normal y μi Hz Hσ). ring.
Qed.

(** *** The conjugate Normal update *)

Lemma posterior_denominator_pos (nObs : Z) (σ σPri : R) :
  (0 < nObs)%Z -> 0 < σ -> 0 < σPri ->
  0 < σ * σ + IZR nObs * (σPri * σPri).
Proof.
  intros Hn Hσ HσPri. apply IZR_lt in Hn.
  apply Rplus_lt_0_compat; [| apply Rmult_lt_0_compat; [exact Hn |]];
    now apply Rmult_lt_0_compat.
Qed.

(** For valid inputs the posterior standard deviation is positive, smaller
    than the prior standard deviation, and its square is smaller than the
    variance [σ² / n] of the sample mean. *)
Theorem NormMuPostStd_bounds (nObs : Z) (σ μPri σPri : R) :
  (0 < nObs)%Z -> 0 < σ -> 0 < σPri ->
  let σPost := NormMuPostStd nObs σ μPri σPri in
  0 < σPost
  /\ σPost < σPri
  /\ σPost * σPost < σ * σ / IZR nObs.
Proof.
  intros Hn Hσ HσPri σPost.
  pose proof (posterior_denominator_pos Hn Hσ HσPri) as Hd.
  assert (Hn' : 0 < IZR nObs) by now apply IZR_lt.
  assert (H2 : 0 < σ * σ) by now apply Rmult_lt_0_compat.
  assert (H2' : 0 < σPri * σPri) by now apply Rmult_lt_0_compat.
  set (V := σ * σ * (σPri * σPri) / (σ * σ + IZR nObs * (σPri * σPri))).
  assert (HV : 0 < V).
  { apply Rdiv_lt_0_compat; [now apply Rmult_lt_0_compat | exact Hd]. }
  assert (Hpost : σPost = sqrt V) by reflexivity.
  assert (Hsq : σPost * σPost = V) by (rewrite Hpost; apply sqrt_sqrt; lra).
  assert (HVpri : V < σPri * σPri).
  { unfold V. apply Rmult_lt_reg_r with (σ * σ + IZR nObs * (σPri * σPri));
      [exact Hd |].
    unfold Rdiv. rewrite Rmult_assoc, Rinv_l by lra.
    assert (0 < IZR nObs * (σPri * σPri) * (σPri * σPri))
      by (repeat apply Rmult_lt_0_compat; assumption).
    lra. }
  assert (HVn : V < σ * σ / IZR nObs).
  { unfold V. apply Rmult_lt_reg_r with (σ * σ + IZR nObs * (σPri * σPri));
      [exact Hd |].
    unfold Rdiv at 1. rewrite Rmult_assoc, Rinv_l by lra.
    replace (σ * σ / IZR nObs * (σ * σ + IZR nObs * (σPri * σPri)))
      with (σ * σ * (σ * σ) / IZR nObs + σ * σ * (σPri * σPri))
      by (field; lra).
    assert (0 < σ * σ * (σ * σ) / IZR nObs).
    { apply Rdiv_lt_0_compat; [now apply Rmult_lt_0_compat | exact Hn']. }
    lra. }
  split; [rewrite Hpost; now apply sqrt_lt_R0 |].
  split; [| now rewrite Hsq].
  rewrite Hpost, <- (sqrt_square σPri) by lra.
  apply sqrt_lt_1; lra.
Qed.

(** For valid inputs the posterior mean is a weighted average of the prior
    mean and the sample mean, with weights strictly between 0 and 1, so it
    lies between the two. *)
Theorem NormMuPostMean_between (nObs : Z) (ȳ σ μPri σPri : R) :
  (0 < nObs)%Z -> 0 < σ -> 0 < σPri ->
  let μPost := NormMuPostMean nObs ȳ σ μPri σPri in
  (exists w, 0 < w < 1 /\ μPost = w * μPri + (1 - w) * ȳ)
  /\ Rmin μPri ȳ <= μPost <= Rmax μPri ȳ.
Proof.
  intros Hn Hσ HσPri μPost.
  pose proof (posterior_denominator_pos Hn Hσ HσPri) as Hd.
  assert (Hn' : 0 < IZR nObs) by now apply IZR_lt.
  assert (H2 : 0 < σ * σ) by now apply Rmult_lt_0_compat.
  assert (H2' : 0 < σPri * σPri) by now apply Rmult_lt_0_compat.
  set (w := σ * σ / (σ * σ + IZR nObs * (σPri * σPri))).
  assert (Hw0 : 0 < w) by now apply Rdiv_lt_0_compat.
  assert (Hw1 : w < 1).
  { unfold w. apply Rmult_lt_reg_r with (σ * σ + IZR nObs * (σPri * σPri));
      [exact Hd |].
    unfold Rdiv. rewrite Rmult_assoc, Rinv_l by lra.
    assert (0 < IZR nObs * (σPri * σPri)) by now apply Rmult_lt_0_compat.
    lra. }
  assert (Hμ : μPost = w * μPri + (1 - w) * ȳ).
  { unfold μPost, NormMuPostMean, float64, w. field. repeat split; lra. }
  split; [exists w; split; [split |]; assumption |].
  rewrite Hμ. unfold Rmin, Rmax.
  destruct (Rle_dec μPri ȳ) as [Hle | Hgt]; split; nra.
Qed.

(** For [σ > 0] the flat-prior quantile of a sample of size 1 is the
    flat-prior quantile of a single observation. *)
Theorem NormMuQtlFPri_at_one (y σ p : R) :
  0 < σ -> NormMuQtlFPri 1 y σ p = Ok (NormMuSingleQtlFPri y σ p).
Proof.
  intros Hσ. unfold NormMuQtlFPri, NormMuSingleQtlFPri, float64.
  rewrite (sigma_guard_passes _ _ Hσ). cbv zeta.
  replace (σ * σ / 1) with (σ * σ) by field.
  rewrite sqrt_square by lra. reflexivity.
Qed.

(** Both known-variance credible intervals are the pair of posterior
    quantiles at [α/2] and [1 - α/2]; under the flat prior this is stated for
    [σ > 0], where the quantile function passes its guard. *)
Theorem NormMu_credible_intervals_are_quantile_pairs
  (nObs : Z) (ȳ σ μPri σPri α : R) :
  NormMuCrINPriKnown nObs ȳ σ μPri σPri α
  = (NormMuQtlNPri nObs ȳ σ μPri σPri (α / 2),
     NormMuQtlNPri nObs ȳ σ μPri σPri (1 - α / 2))
  /\ (0 < σ ->
      NormMuQtlFPri nObs ȳ σ (α / 2)
      = Ok (fst (NormMuCrIFPriKnown nObs ȳ σ α))
      /\ NormMuQtlFPri nObs ȳ σ (1 - α / 2)
         = Ok (snd (NormMuCrIFPriKnown nObs ȳ σ α))).
Proof.
  split; [reflexivity |].
  intros Hσ. unfold NormMuQtlFPri, NormMuCrIFPriKnown.
  rewrite !(sigma_guard_passes _ _ Hσ). split; reflexivity.
Qed.

End NormalMuFacts.

(** ** Properties of [bayes/normal_diff.go] *)

Section NormalDiffFacts.

Context {D : Dst}.

Lemma NormMuPostStd_sqr (nObs : Z) (σ μPri σPri : R) :
  (0 < nObs)%Z -> 0 < σ -> 0 < σPri ->
  NormMuPostStd nObs σ μPri σPri * NormMuPostStd nObs σ μPri σPri
  = posterior_variance nObs σ σPri.
Proof.
  intros Hn Hσ HσPri. unfold NormMuPostStd, posterior_variance, float64.
  assert (Hn' : 0 < IZR nObs) by now apply IZR_lt.
  assert (H2 : 0 < σ * σ) by now apply Rmult_lt_0_compat.
  assert (H2' : 0 < σPri * σPri) by now apply Rmult_lt_0_compat.
  assert (Hd : 0 < σ * σ + IZR nObs * (σPri * σPri)).
  { apply Rplus_lt_0_compat; [exact H2 | now apply Rmult_lt_0_compat]. }
  cbv zeta. rewrite sqrt_sqrt.
  - field. repeat split; lra.
  - left. apply Rdiv_lt_0_compat; [now apply Rmult_lt_0_compat | exact Hd].
Qed.

Lemma sqrt_sum_sqr (a b : R) : sqrt (a * a + b * b) * sqrt (a * a + b * b) = a * a + b * b.
Proof.
  apply sqrt_sqrt.
  pose proof (Rle_0_sqr a) as Ha. pose proof (Rle_0_sqr b) as Hb.
  unfold Rsqr in Ha, Hb. lra.
Qed.

(** C2.  For valid inputs the moments accessor returns the difference of the
    two posterior means and the square root of the sum of the squares of the
    two posterior standard deviations, each computed by [NormMuPostMean] and
    [NormMuPostStd] on its own sample; the square of the returned standard
    deviation is the sum of those squares, which is the sum of the two
    posterior variances. *)
Theorem NormalMuDiffMomentsNPriKn_additive
  (nObs1 nObs2 : Z) (ȳ1 ȳ2 σ1 σ2 μ1Pri σ1Pri μ2Pri σ2Pri : R) :
  (0 < nObs1)%Z -> (0 < nObs2)%Z ->
  0 < σ1 -> 0 < σ2 -> 0 < σ1Pri -> 0 < σ2Pri ->
  let μ1Post := NormMuPostMean nObs1 ȳ1 σ1 μ1Pri σ1Pri in
  let σ1Post := NormMuPostStd nObs1 σ1 μ1Pri σ1Pri in
  let μ2Post := NormMuPostMean nObs2 ȳ2 σ2 μ2Pri σ2Pri in
  let σ2Post := NormMuPostStd nObs2 σ2 μ2Pri σ2Pri in
  let m := NormalMuDiffMomentsNPriKn
             nObs1 nObs2 ȳ1 ȳ2 σ1 σ2 μ1Pri σ1Pri μ2Pri σ2Pri in
  fst m = μ1Post - μ2Post
  /\ snd m = sqrt (σ1Post * σ1Post + σ2Post * σ2Post)
  /\ snd m * snd m = σ1Post * σ1Post + σ2Post * σ2Post
  /\ snd m * snd m
     = posterior_variance nObs1 σ1 σ1Pri + posterior_variance nObs2 σ2 σ2Pri.
Proof.
  intros Hn1 Hn2 Hσ1 Hσ2 Hσ1Pri Hσ2Pri μ1Post σ1Post μ2Post σ2Post m.
  assert (Hsnd : snd m = sqrt (σ1Post * σ1Post + σ2Post * σ2Post))
    by reflexivity.
  split; [reflexivity |]. split; [exact Hsnd |]. split.
  - rewrite Hsnd. apply sqrt_sum_sqr.
  - rewrite Hsnd, sqrt_sum_sqr. subst σ1Post σ2Post.
    now rewrite !NormMuPostStd_sqr.
Qed.

(** The value [v] that [satterthwaitenu] rounds is Satterthwaite's ratio. *)
Lemma satterthwaite_ratio_code (estvar1 : R) (n1 : Z) (estvar2 : R) (n2 : Z) :
  (estvar1 / float64 n1 + estvar2 / float64 n2)
  * (estvar1 / float64 n1 + estvar2 / float64 n2)
  / ((estvar1 / float64 n1) * (estvar1 / float64 n1) / (float64 n1 + 1)
     + (estvar2 / float64 n2) * (estvar2 / float64 n2) / (float64 n2 + 1))
  = satterthwaite_ratio estvar1 n1 estvar2 n2.
Proof.
  unfold satterthwaite_ratio, float64. cbn [pow].
  now rewrite !Rmult_1_r.
Qed.

Lemma satterthwaitenu_unfold (estvar1 : R) (n1 : Z) (estvar2 : R) (n2 : Z) :
  satterthwaitenu estvar1 n1 estvar2 n2
  = let v := satterthwaite_ratio estvar1 n1 estvar2 n2 in
    if Rle_dec (v - IZR (Zfloor v)) (IZR (Zceil v) - v)
    then IZR (Zfloor v) else IZR (Zceil v).
Proof.
  unfold satterthwaitenu. cbv zeta.
  now rewrite satterthwaite_ratio_code.
Qed.

(** The ceiling is the floor or its successor. *)
Lemma Zceil_floor_cases (x : R) :
  (Zfloor x <= Zceil x <= Zfloor x + 1)%Z.
Proof.
  pose proof (Zfloor_bound x) as [Hf1 Hf2].
  pose proof (Zceil_bound x) as [Hc1 Hc2].
  split.
  - apply le_IZR. lra.
  - assert (H : (Zceil x - 1 < Zfloor x + 1)%Z).
    { apply lt_IZR. rewrite minus_IZR, plus_IZR. lra. }
    lia.
Qed.

(** Rounding of [satterthwaitenu]: the floor when it is at least as near as
    the ceiling, the ceiling otherwise, is an integer nearest to [x]. *)
Lemma floor_or_ceil_nearest (x : R) :
  nearest_integer x
    (if Rle_dec (x - IZR (Zfloor x)) (IZR (Zceil x) - x)
     then Zfloor x else Zceil x).
Proof.
  pose proof (Zfloor_bound x) as [Hf1 Hf2].
  pose proof (Zceil_bound x) as [Hc1 Hc2].
  pose proof (Zceil_floor_cases x) as [Hfc Hcf].
  intros j.
  assert (Hj : (j <= Zfloor x)%Z \/ (Zceil x <= j)%Z) by lia.
  destruct Hj as [Hj | Hj]; apply IZR_le in Hj;
    destruct (Rle_dec (x - IZR (Zfloor x)) (IZR (Zceil x) - x)) as [Hle | Hgt];
    unfold Rabs; repeat destruct Rcase_abs; lra.
Qed.



(** C9.  The last argument of each constructor for the unknown-variance case
    does not reach the function that the constructor returns. *)
Theorem NormalMuDiff_Un_trailing_argument_unused
  (nObs1 nObs2 : Z) (ȳ1 ȳ2 s1 s2 μ1Pri σ1Pri μ2Pri σ2Pri : R)
  (a a' x : R) :
  NormalMuDiffQtlNPriUn nObs1 nObs2 ȳ1 ȳ2 s1 s2 μ1Pri σ1Pri μ2Pri σ2Pri a x
  = NormalMuDiffQtlNPriUn nObs1 nObs2 ȳ1 ȳ2 s1 s2 μ1Pri σ1Pri μ2Pri σ2Pri a' x
  /\ NormalMuDiffCrINPriUn nObs1 nObs2 ȳ1 ȳ2 s1 s2 μ1Pri σ1Pri μ2Pri σ2Pri a x
     = NormalMuDiffCrINPriUn
         nObs1 nObs2 ȳ1 ȳ2 s1 s2 μ1Pri σ1Pri μ2Pri σ2Pri a' x
  /\ NormalMuDiffCrIFPriUn nObs1 nObs2 ȳ1 ȳ2 s1 s2 μ1Pri σ1Pri μ2Pri σ2Pri a x
     = NormalMuDiffCrIFPriUn
         nObs1 nObs2 ȳ1 ȳ2 s1 s2 μ1Pri σ1Pri μ2Pri σ2Pri a' x.
Proof.
  unfold NormalMuDiffQtlNPriUn, NormalMuDiffCrINPriUn, NormalMuDiffCrIFPriUn.
  repeat split.
Qed.

(** Both credible intervals of the unknown-variance case are centred at the
    difference of the posterior means. *)
Theorem NormalMuDiff_Un_intervals_centred
  (nObs1 nObs2 : Z) (ȳ1 ȳ2 s1 s2 μ1Pri σ1Pri μ2Pri σ2Pri a α : R) :
  let μdPost := NormMuPostMean nObs1 ȳ1 s1 μ1Pri σ1Pri
                - NormMuPostMean nObs2 ȳ2 s2 μ2Pri σ2Pri in
  let iN := NormalMuDiffCrINPriUn
              nObs1 nObs2 ȳ1 ȳ2 s1 s2 μ1Pri σ1Pri μ2Pri σ2Pri a α in
  let iF := NormalMuDiffCrIFPriUn
              nObs1 nObs2 ȳ1 ȳ2 s1 s2 μ1Pri σ1Pri μ2Pri σ2Pri a α in
  fst iN + snd iN = 2 * μdPost /\ fst iF + snd iF = 2 * μdPost.
Proof.
  unfold NormalMuDiffCrINPriUn, NormalMuDiffCrIFPriUn. cbn [fst snd].
  split; ring.
Qed.

(** Exchanging the two samples negates the posterior mean of the difference
    and keeps its standard deviation. *)
Theorem NormalMuDiffMomentsNPriKn_swap
  (nObs1 nObs2 : Z) (ȳ1 ȳ2 σ1 σ2 μ1Pri σ1Pri μ2Pri σ2Pri : R) :
  let m := NormalMuDiffMomentsNPriKn
             nObs1 nObs2 ȳ1 ȳ2 σ1 σ2 μ1Pri σ1Pri μ2Pri σ2Pri in
  NormalMuDiffMomentsNPriKn nObs2 nObs1 ȳ2 ȳ1 σ2 σ1 μ2Pri σ2Pri μ1Pri σ1Pri
  = (- fst m, snd m).
Proof.
  unfold NormalMuDiffMomentsNPriKn. cbn [fst snd].
  f_equal; [ring | f_equal; ring].
Qed.

Lemma NormMuPostStd_nonneg (nObs : Z) (σ μPri σPri : R) :
  0 <= NormMuPostStd nObs σ μPri σPri.
Proof. unfold NormMuPostStd. apply sqrt_pos. Qed.

(** For valid inputs the standard deviation of the difference is at least
    each of the two posterior standard deviations and at most their sum. *)
Theorem NormalMuDiffMomentsNPriKn_std_bounds
  (nObs1 nObs2 : Z) (ȳ1 ȳ2 σ1 σ2 μ1Pri σ1Pri μ2Pri σ2Pri : R) :
  (0 < nObs1)%Z -> (0 < nObs2)%Z ->
  0 < σ1 -> 0 < σ2 -> 0 < σ1Pri -> 0 < σ2Pri ->
  let σ1Post := NormMuPostStd nObs1 σ1 μ1Pri σ1Pri in
  let σ2Post := NormMuPostStd nObs2 σ2 μ2Pri σ2Pri in
  let σdPost := snd (NormalMuDiffMomentsNPriKn
                       nObs1 nObs2 ȳ1 ȳ2 σ1 σ2 μ1Pri σ1Pri μ2Pri σ2Pri) in
  σ1Post <= σdPost /\ σ2Post <= σdPost /\ σdPost <= σ1Post + σ2Post.
Proof.
  intros _ _ _ _ _ _ σ1Post σ2Post σdPost.
  pose proof (NormMuPostStd_nonneg nObs1 σ1 μ1Pri σ1Pri) as H1.
  pose proof (NormMuPostStd_nonneg nObs2 σ2 μ2Pri σ2Pri) as H2.
  fold σ1Post in H1. fold σ2Post in H2.
  assert (Hd : σdPost = sqrt (σ1Post * σ1Post + σ2Post * σ2Post))
    by reflexivity.
  assert (H11 : 0 <= σ1Post * σ1Post) by apply Rle_0_sqr.
  assert (H22 : 0 <= σ2Post * σ2Post) by apply Rle_0_sqr.
  rewrite Hd. split; [| split].
  - rewrite <- (sqrt_square σ1Post) at 1 by exact H1.
    apply sqrt_le_1; lra.
  - rewrite <- (sqrt_square σ2Post) at 1 by exact H2.
    apply sqrt_le_1; lra.
  - rewrite <- (sqrt_square (σ1Post + σ2Post)) by lra.
    apply sqrt_le_1; [lra | apply Rle_0_sqr |].
    assert (0 <= σ1Post * σ2Post) by now apply Rmult_le_pos.
    lra.
Qed.

(** The density, the distribution function and the quantile function of the
    known-variance case are the Normal primitives at the mean and standard
    deviation that the moments accessor returns for the same inputs. *)
Theorem NormalMuDiff_Kn_functions_at_moments
  (nObs1 nObs2 : Z) (ȳ1 ȳ2 σ1 σ2 μ1Pri σ1Pri μ2Pri σ2Pri : R) :
  let m := NormalMuDiffMomentsNPriKn
             nObs1 nObs2 ȳ1 ȳ2 σ1 σ2 μ1Pri σ1Pri μ2Pri σ2Pri in
  NormalMuDiffPDFNPriKn nObs1 nObs2 ȳ1 ȳ2 σ1 σ2 μ1Pri σ1Pri μ2Pri σ2Pri
  = NormalPDF (fst m) (snd m)
  /\ NormalMuDiffCDFNPriKn nObs1 nObs2 ȳ1 ȳ2 σ1 σ2 μ1Pri σ1Pri μ2Pri σ2Pri
     = NormalCDF (fst m) (snd m)
  /\ NormalMuDiffQtlNPriKn nObs1 nObs2 ȳ1 ȳ2 σ1 σ2 μ1Pri σ1Pri μ2Pri σ2Pri
     = NormalQtl (fst m) (snd m).
Proof.
  intros m. split; [| split]; reflexivity.
Qed.

(** *** Satterthwaite's degrees of freedom *)

(** For positive variance estimates and sample sizes Satterthwaite's ratio
    lies between [min n1 n2 + 1] and [n1 + n2 + 2]. *)
Lemma satterthwaite_ratio_bounds
  (estvar1 : R) (n1 : Z) (estvar2 : R) (n2 : Z) :
  0 < estvar1 -> 0 < estvar2 -> (0 < n1)%Z -> (0 < n2)%Z ->
  IZR (Z.min n1 n2 + 1) <= satterthwaite_ratio estvar1 n1 estvar2 n2
  /\ satterthwaite_ratio estvar1 n1 estvar2 n2 <= IZR (n1 + n2 + 2).
Proof.
  intros He1 He2 Hn1 Hn2. unfold satterthwaite_ratio.
  apply IZR_lt in Hn1, Hn2.
  set (a := estvar1 / IZR n1). set (b := estvar2 / IZR n2).
  assert (Ha : 0 < a) by now apply Rdiv_lt_0_compat.
  assert (Hb : 0 < b) by now apply Rdiv_lt_0_compat.
  set (p := IZR n1 + 1). set (q := IZR n2 + 1).
  assert (Hp : 0 < p) by (unfold p; lra).
  assert (Hq : 0 < q) by (unfold q; lra).
  assert (Ha2 : 0 < a ^ 2) by (apply pow_lt; exact Ha).
  assert (Hb2 : 0 < b ^ 2) by (apply pow_lt; exact Hb).
  assert (Hap : 0 < a ^ 2 / p) by now apply Rdiv_lt_0_compat.
  assert (Hbq : 0 < b ^ 2 / q) by now apply Rdiv_lt_0_compat.
  assert (HD : 0 < a ^ 2 / p + b ^ 2 / q) by lra.
  assert (Hab : 0 < a * b) by now apply Rmult_lt_0_compat.
  split.
  - apply Rmult_le_reg_r with (a ^ 2 / p + b ^ 2 / q); [exact HD |].
    unfold Rdiv at 3. rewrite Rmult_assoc, Rinv_l, Rmult_1_r by lra.
    assert (Hmin : IZR (Z.min n1 n2 + 1) <= p /\ IZR (Z.min n1 n2 + 1) <= q).
    { rewrite plus_IZR. unfold p, q.
      split; apply Rplus_le_compat_r, IZR_le; lia. }
    destruct Hmin as [Hmp Hmq].
    assert (Hmpos : 0 < IZR (Z.min n1 n2 + 1)).
    { apply IZR_lt. apply lt_IZR in Hn1, Hn2. lia. }
    set (m := IZR (Z.min n1 n2 + 1)) in *.
    assert (H1 : m * (a ^ 2 / p) <= a ^ 2).
    { replace (m * (a ^ 2 / p)) with (a ^ 2 * (m / p)) by (field; lra).
      rewrite <- (Rmult_1_r (a ^ 2)) at 2.
      apply Rmult_le_compat_l; [lra |].
      apply Rmult_le_reg_r with p; [exact Hp |].
      unfold Rdiv. rewrite Rmult_assoc, Rinv_l by lra. lra. }
    assert (H2 : m * (b ^ 2 / q) <= b ^ 2).
    { replace (m * (b ^ 2 / q)) with (b ^ 2 * (m / q)) by (field; lra).
      rewrite <- (Rmult_1_r (b ^ 2)) at 2.
      apply Rmult_le_compat_l; [lra |].
      apply Rmult_le_reg_r with q; [exact Hq |].
      unfold Rdiv. rewrite Rmult_assoc, Rinv_l by lra. lra. }
    replace ((a + b) ^ 2) with (a ^ 2 + b ^ 2 + 2 * (a * b)) by ring.
    lra.
  - apply Rmult_le_reg_r with (a ^ 2 / p + b ^ 2 / q); [exact HD |].
    unfold Rdiv at 1. rewrite Rmult_assoc, Rinv_l, Rmult_1_r by lra.
    replace (IZR (n1 + n2 + 2)) with (p + q)
      by (rewrite !plus_IZR; unfold p, q; ring).
    assert (Hsq : 0 <= (a * q - b * p) ^ 2) by apply pow2_ge_0.
    assert (Hpq : 0 < p * q) by now apply Rmult_lt_0_compat.
    apply Rmult_le_reg_r with (p * q); [exact Hpq |].
    replace ((p + q) * (a ^ 2 / p + b ^ 2 / q) * (p * q))
      with ((p + q) * (a ^ 2 * q + b ^ 2 * p)) by (field; lra).
    nra.
Qed.

(** For positive variance estimates and sample sizes the degrees of freedom
    are an integer between [min nObs1 nObs2 + 1] and [nObs1 + nObs2 + 2]; in
    particular they are at least 2. *)
Theorem satterthwaitenu_bounds
  (estvar1 : R) (nObs1 : Z) (estvar2 : R) (nObs2 : Z) :
  0 < estvar1 -> 0 < estvar2 -> (0 < nObs1)%Z -> (0 < nObs2)%Z ->
  exists k : Z,
    satterthwaitenu estvar1 nObs1 estvar2 nObs2 = IZR k
    /\ (Z.min nObs1 nObs2 + 1 <= k <= nObs1 + nObs2 + 2)%Z
    /\ (2 <= k)%Z.
Proof.
  intros He1 He2 Hn1 Hn2.
  destruct (satterthwaite_ratio_bounds He1 He2 Hn1 Hn2) as [Hlo Hhi].
  rewrite satterthwaitenu_unfold. cbv zeta.
  set (v := satterthwaite_ratio estvar1 nObs1 estvar2 nObs2) in *.
  assert (Hfloor : (Z.min nObs1 nObs2 + 1 <= Zfloor v)%Z)
    by now apply Zfloor_lub.
  assert (Hceil : (Zceil v <= nObs1 + nObs2 + 2)%Z).
  { pose proof (Zceil_bound v) as [Hc _].
    assert (H : (Zceil v - 1 < nObs1 + nObs2 + 2)%Z).
    { apply lt_IZR. rewrite minus_IZR. lra. }
    lia. }
  pose proof (Zceil_floor_cases v) as [Hfc _].
  destruct (Rle_dec _ _); eexists; (split; [reflexivity | lia]).
Qed.

(** The degrees of freedom do not depend on the order of the two
    samples. *)
Theorem satterthwaitenu_symmetric
  (estvar1 : R) (nObs1 : Z) (estvar2 : R) (nObs2 : Z) :
  satterthwaitenu estvar2 nObs2 estvar1 nObs1
  = satterthwaitenu estvar1 nObs1 estvar2 nObs2.
Proof.
  rewrite !satterthwaitenu_unfold.
  replace (satterthwaite_ratio estvar2 nObs2 estvar1 nObs1)
    with (satterthwaite_ratio estvar1 nObs1 estvar2 nObs2);
    [reflexivity |].
  unfold satterthwaite_ratio. f_equal; ring.
Qed.

(** *** The intervals of the unknown-variance case *)


(** The quantile of the unknown-variance case at [p] is an endpoint of the
    Normal-prior credible interval at [α = 1 - 2 p]: the lower one for
    [p < 0.5], the upper one otherwise. *)
Theorem NormalMuDiffQtlNPriUn_is_interval_endpoint
  (nObs1 nObs2 : Z) (ȳ1 ȳ2 s1 s2 μ1Pri σ1Pri μ2Pri σ2Pri a a' p : R) :
  let i := NormalMuDiffCrINPriUn
             nObs1 nObs2 ȳ1 ȳ2 s1 s2 μ1Pri σ1Pri μ2Pri σ2Pri a' (1 - 2 * p) in
  (p < 0.5 ->
   NormalMuDiffQtlNPriUn nObs1 nObs2 ȳ1 ȳ2 s1 s2 μ1Pri σ1Pri μ2Pri σ2Pri a p
   = fst i)
  /\ (0.5 <= p ->
      NormalMuDiffQtlNPriUn nObs1 nObs2 ȳ1 ȳ2 s1 s2 μ1Pri σ1Pri μ2Pri σ2Pri a p
      = snd i).
Proof.
  unfold NormalMuDiffQtlNPriUn, NormalMuDiffCrINPriUn. cbn [fst snd].
  destruct (Rlt_dec p 0.5) as [Hlt | Hge]; split; intros H;
    try reflexivity; exfalso; lra.
Qed.

(** *** The variance estimate *)

Lemma varest_mean_loop_ok (y : list R) (k : nat) (mean : R) :
  (k <= length y)%nat ->
  varest_mean_loop y k mean = Ok (mean + Rsum (firstn k y)).
Proof.
  revert y mean.
  induction k as [| k IH]; intros y mean Hk; cbn [varest_mean_loop firstn].
  - f_equal. unfold Rsum; cbn. ring.
  - destruct y as [| yi y]; cbn [length] in Hk; [lia |].
    rewrite IH by lia. rewrite Rsum_cons. f_equal. ring.
Qed.

Lemma varest_mean_loop_panic (y : list R) (k : nat) (mean : R) :
  (length y < k)%nat ->
  varest_mean_loop y k mean = Panic index_out_of_range.
Proof.
  revert y mean.
  induction k as [| k IH]; intros y mean Hk; [lia |].
  destruct y as [| yi y]; cbn [varest_mean_loop length] in *; [reflexivity |].
  apply IH. lia.
Qed.

Lemma varest_sum_loop_ok (y : list R) (k : nat) (mean sum : R) :
  (k <= length y)%nat ->
  varest_sum_loop y k mean sum = Ok (sum + sum_sq_dev mean (firstn k y)).
Proof.
  revert y sum.
  induction k as [| k IH]; intros y sum Hk; cbn [varest_sum_loop firstn].
  - f_equal. unfold sum_sq_dev, Rsum; cbn. ring.
  - destruct y as [| yi y]; cbn [length] in Hk; [lia |].
    rewrite IH by lia. unfold sum_sq_dev. cbn [map].
    rewrite Rsum_cons. f_equal. ring.
Qed.

(** The variance estimate in closed form, when the slice holds at least
    [nObs] observations. *)
Lemma varest_ok (y : list R) (nObs : Z) :
  (nObs <= Z.of_nat (length y))%Z ->
  varest y nObs
  = Ok (sum_sq_dev (Rsum (firstn (Z.to_nat nObs) y) / IZR nObs)
          (firstn (Z.to_nat nObs) y)
        / (IZR nObs - 1)).
Proof.
  intros Hlen. unfold varest, float64.
  assert (Hk : (Z.to_nat nObs <= length y)%nat) by lia.
  rewrite (varest_mean_loop_ok _ _ Hk). cbn [bind].
  rewrite (varest_sum_loop_ok _ _ _ Hk). cbn [bind].
  replace (0.0 + Rsum (firstn (Z.to_nat nObs) y))
    with (Rsum (firstn (Z.to_nat nObs) y)) by lra.
  f_equal. f_equal. lra.
Qed.

(** [varest] fails exactly when it is asked for more observations than the
    slice holds; a count of zero or less reads nothing and does not fail. *)
Theorem varest_panics_iff (y : list R) (nObs : Z) :
  is_panic (varest y nObs) <-> (Z.of_nat (length y) < nObs)%Z.
Proof.
  destruct (Z_lt_le_dec (Z.of_nat (length y)) nObs) as [Hlt | Hle].
  - split; [intros _; exact Hlt | intros _].
    unfold varest. rewrite varest_mean_loop_panic by lia.
    eexists. reflexivity.
  - rewrite (varest_ok _ Hle). split; [| lia].
    intros [msg Hmsg]. discriminate Hmsg.
Qed.

Lemma Rsum_zero_iff (l : list R) :
  Forall (Rle 0) l -> (Rsum l = 0 <-> Forall (fun x => x = 0) l).
Proof.
  induction 1 as [| x l Hx Hl IH].
  - split; [constructor | reflexivity].
  - rewrite Rsum_cons. pose proof (Rsum_nonneg Hl) as Hs. split.
    + intros H0. constructor; [lra | apply IH; lra].
    + intros Hall. inversion Hall as [| ? ? Hx0 Hl0]; subst.
      apply IH in Hl0. lra.
Qed.

Lemma sum_sq_dev_terms_nonneg (m : R) (l : list R) :
  Forall (Rle 0) (map (fun yi => (yi - m) * (yi - m)) l).
Proof.
  apply Forall_forall. intros x Hx.
  apply in_map_iff in Hx. destruct Hx as [yi [<- _]]. apply Rle_0_sqr.
Qed.

(** With at least two observations, all of them in the slice, the variance
    estimate is the sum of the squared deviations of the first [nObs]
    observations from their mean, divided by [nObs - 1]; it is never
    negative, and it is zero exactly when these observations all equal their
    mean. *)
Theorem varest_nonneg (y : list R) (nObs : Z) :
  (2 <= nObs)%Z -> (nObs <= Z.of_nat (length y))%Z ->
  let ys := firstn (Z.to_nat nObs) y in
  let mean := Rsum ys / IZR nObs in
  exists s,
    varest y nObs = Ok s
    /\ s = sum_sq_dev mean ys / (IZR nObs - 1)
    /\ 0 <= s
    /\ (s = 0 <-> Forall (fun yi => yi = mean) ys).
Proof.
  intros Hn Hlen ys mean.
  assert (Hn1 : 0 < IZR nObs - 1).
  { assert (2 <= IZR nObs) by now apply IZR_le. lra. }
  pose proof (sum_sq_dev_terms_nonneg mean ys) as Hterms.
  pose proof (Rsum_nonneg Hterms) as Hsum. fold (sum_sq_dev mean ys) in Hsum.
  eexists. split; [now apply varest_ok |]. split; [reflexivity |].
  split.
  - apply Rmult_le_pos; [exact Hsum | left; now apply Rinv_0_lt_compat].
  - assert (Hs : sum_sq_dev mean ys / (IZR nObs - 1) = 0
                 <-> sum_sq_dev mean ys = 0).
    { split; intros H0.
      - apply Rmult_eq_reg_r with (/ (IZR nObs - 1));
          [| apply Rinv_neq_0_compat; lra].
        unfold Rdiv in H0. rewrite H0. ring.
      - rewrite H0. unfold Rdiv. ring. }
    apply (iff_trans Hs). apply (iff_trans (Rsum_zero_iff Hterms)).
    rewrite Forall_map, !Forall_forall.
    split; intros Hall yi Hin; specialize (Hall yi Hin); cbv beta in *.
    + apply Rmult_integral in Hall. lra.
    + rewrite Hall. ring.
Qed.

End NormalDiffFacts.

(** ** The statements at concrete inputs *)

(** The discrete-prior scenario with [σ = 1]: one observation of 2.04, and a
    sample of size 5 with mean 2.04. *)
Lemma discrete_posterior_normalized_witness :
  (exists post,
      NormMuSinglePMFDPri (D := DstExample) 2.04 1
        bolstad_values bolstad_masses = Ok post
      /\ length post = 5%nat
      /\ Rsum post = 1)
  /\ (exists post,
      NormMuPMFDPri 5 2.04 1 bolstad_values bolstad_masses = Ok post
      /\ length post = 5%nat
      /\ Rsum post = 1).
Proof.
  assert (Hlen : length bolstad_masses = length bolstad_values)
    by reflexivity.
  assert (Hσ : 0 < 1) by apply Rlt_0_1.
  assert (Hpri : Forall (Rle 0) bolstad_masses).
  { unfold bolstad_masses. repeat constructor; lra. }
  assert (Hsingle : Exists (Rlt 0)
            (weighted (single_likelihood (D := DstExample) 2.04 1)
               bolstad_values bolstad_masses)).
  { apply Exists_cons_hd. cbn [fst snd].
    apply Rmult_lt_0_compat; [lra | apply std_normal_pdf_pos]. }
  assert (Hsample : Exists (Rlt 0)
            (weighted (sample_likelihood 5 2.04 1)
               bolstad_values bolstad_masses)).
  { apply Exists_cons_hd. cbn [fst snd].
    apply Rmult_lt_0_compat; [lra | apply exp_pos]. }
  destruct (@discrete_posterior_normalized DstExample
              2.04 5 2.04 1 bolstad_values bolstad_masses Hlen Hσ Hpri)
    as [Hone Hmany].
  destruct (Hone Hsingle) as [post1 [Hpost1 [_ [Hlength1 Hsum1]]]].
  destruct (Hmany Hsample) as [post5 [Hpost5 [_ [Hlength5 Hsum5]]]].
  split.
  - exists post1. split; [exact Hpost1 |]. split; [exact Hlength1 | exact Hsum1].
  - exists post5. split; [exact Hpost5 |]. split; [exact Hlength5 | exact Hsum5].
Defined.

(** The single-observation quantile at [y = 1], [σ = 1], prior
    [Normal(0, 1)], [p = 0.5]. *)
Lemma NormMuSingleQtlNPri_is_NormMuQtlNPri_at_one_witness :
  NormMuSingleQtlNPri (D := DstExample) 1 1 0 1 0.5
  = Ok (NormMuQtlNPri (D := DstExample) 1 1 1 0 1 0.5).
Proof.
  assert (Hσ : 0 < 1) by apply Rlt_0_1.
  exact (proj1 (NormMuSingleQtlNPri_is_NormMuQtlNPri_at_one
                  (D := DstExample) 1 0 0.5 Hσ Hσ)).
Defined.

(** C7.  The claim requires every entry point to panic when [σ <= 0] or
    [σPri <= 0].  The code does not: [NormMuSingleQtlNPri], whose panic
    message names the prior standard deviation, tests [σ] only, so at
    [σ = 1], [σPri = -1] it returns a number instead of panicking. *)
Lemma NormMuSingleQtlNPri_accepts_nonpositive_sigmaPri :
  NormMuSingleQtlNPri (D := DstExample) 0 1 0 (-1) 0.5
  = Ok (NormalQtlFor (Dst := DstExample)
          ((1 * 1 * 0 + -1 * -1 * 0) / (1 * 1 + -1 * -1))
          (sqrt (1 * 1 * (-1 * -1) / (1 * 1 + -1 * -1))) 0.5)
  /\ ~ is_panic (NormMuSingleQtlNPri (D := DstExample) 0 1 0 (-1) 0.5)
  /\ ~ (forall (D : Dst) (y σ μPri σPri p : R),
          σ <= 0 \/ σPri <= 0 ->
          is_panic (NormMuSingleQtlNPri y σ μPri σPri p)).
Proof.
  assert (E : NormMuSingleQtlNPri (D := DstExample) 0 1 0 (-1) 0.5
              = Ok (NormalQtlFor (Dst := DstExample)
                      ((1 * 1 * 0 + -1 * -1 * 0) / (1 * 1 + -1 * -1))
                      (sqrt (1 * 1 * (-1 * -1) / (1 * 1 + -1 * -1))) 0.5)).
  { unfold NormMuSingleQtlNPri. now rewrite sigma_guard_passes by lra. }
  assert (N : ~ is_panic (NormMuSingleQtlNPri (D := DstExample) 0 1 0 (-1) 0.5)).
  { rewrite E. intros [msg Hmsg]. discriminate Hmsg. }
  split; [exact E |]. split; [exact N |].
  intros H. apply N. apply H. right. lra.
Qed.

(** The Michelson data: two samples of sizes 20 and 23, [σ = 100], priors
    [Normal(300000, 500)]. *)
Lemma NormalMuDiffMomentsNPriKn_additive_witness :
  let m := NormalMuDiffMomentsNPriKn
             20 23 299909 299756 100 100 300000 500 300000 500 in
  snd m * snd m
  = NormMuPostStd 20 100 300000 500 * NormMuPostStd 20 100 300000 500
    + NormMuPostStd 23 100 300000 500 * NormMuPostStd 23 100 300000 500.
Proof.
  assert (H20 : (0 < 20)%Z) by reflexivity.
  assert (H23 : (0 < 23)%Z) by reflexivity.
  assert (H100 : 0 < 100) by lra.
  assert (H500 : 0 < 500) by lra.
  exact (proj1 (proj2 (proj2
    (NormalMuDiffMomentsNPriKn_additive
       299909 299756 300000 300000 H20 H23 H100 H100 H500 H500)))).
Defined.






(** The degrees-of-freedom scenario of the specification:
    [estvar1 = 4], [n1 = 10], [estvar2 = 9], [n2 = 15] gives the ratio
    [8800 / 326], which lies between 26.5 and 27, hence 27 degrees of
    freedom. *)
Example satterthwaitenu_4_10_9_15 : satterthwaitenu 4 10 9 15 = 27.
Proof.
  assert (Hv : satterthwaite_ratio 4 10 9 15 = 8800 / 326).
  { unfold satterthwaite_ratio. field. }
  rewrite satterthwaitenu_unfold, Hv. cbv zeta.
  assert (Hf : Zfloor (8800 / 326) = 26%Z) by (apply Zfloor_eq; lra).
  assert (Hc : Zceil (8800 / 326) = 27%Z) by (apply Zceil_eq; lra).
  rewrite Hf, Hc.
  destruct (Rle_dec _ _) as [Hle | _]; [exfalso; lra | reflexivity].
Qed.

(** The Normal-prior scenario of the specification: [n = 20], [ȳ = 0],
    [σ = 1], prior [Normal(0, 1)] gives posterior mean 0 and posterior
    standard deviation [sqrt (1 / 21)]. *)
Example NormMuPost_20_0_1_0_1 :
  NormMuPostMean 20 0 1 0 1 = 0 /\ NormMuPostStd 20 1 0 1 = sqrt (1 / 21).
Proof.
  unfold NormMuPostMean, NormMuPostStd, float64. split.
  - field.
  - f_equal. field.
Qed.

(** The one-sided test at [sumK = 10], [n = 5], prior [Gamma(1, 0)],
    [α = 0.05], [λ0 = 2]. *)
Lemma PoissonLambdaOneSidedTst_rejects_iff_CDF_below_witness :
  exists (cdf : R -> R) (reject : bool),
    PoissonLambdaCDFGPri (D := DstExample) 10 5 1 0 = Ok cdf
    /\ PoissonLambdaOneSidedTst (D := DstExample) 10 5 1 0 0.05 2 = Ok reject
    /\ (reject = true <-> cdf 2 < 0.05)
    /\ PoissonLambdaOneSidedOdds (D := DstExample) 10 5 1 0 2
       = Ok (cdf 2 / (1 - cdf 2)).
Proof.
  assert (H1 : (0 <= 10)%Z) by (intro H; discriminate H).
  assert (H2 : (0 < 5)%Z) by reflexivity.
  assert (H3 : 0 <= 1) by apply Rle_0_1.
  assert (H4 : 0 <= 0) by apply Rle_refl.
  exact (PoissonLambdaOneSidedTst_rejects_iff_CDF_below
           (D := DstExample) 0.05 2 H1 H2 H3 H4).
Defined.

(** The interquartile range at [sumK = 10], [n = 5], prior [Gamma(1, 0)]. *)
Lemma PoissonLambdaIQR_quartiles_witness :
  exists qf : R -> R,
    PoissonLambdaQtlGPri (D := DstExample) 10 5 1 0 = Ok qf
    /\ PoissonLambdaIQR (D := DstExample) 10 5 1 0 = Ok (qf 0.75 - qf 0.25).
Proof.
  assert (H1 : (0 <= 10)%Z) by (intro H; discriminate H).
  assert (H2 : (0 < 5)%Z) by reflexivity.
  assert (H3 : 0 <= 1) by apply Rle_0_1.
  assert (H4 : 0 <= 0) by apply Rle_refl.
  exact (PoissonLambdaIQR_quartiles (D := DstExample) H1 H2 H3 H4).
Defined.

(** The discrete-prior scenario of the specification: after a sample of size
    5 with mean 2.04 the posterior mass of the candidate [μ = 2] exceeds the
    posterior mass of the candidate [μ = 4]. *)
Example bolstad_posterior_mass_2_exceeds_mass_4 :
  exists post,
    NormMuPMFDPri 5 2.04 1 bolstad_values bolstad_masses = Ok post
    /\ nth 4 post 0 < nth 0 post 0.
Proof.
  assert (Hσ : 0 < 1) by apply Rlt_0_1.
  set (m := weighted (sample_likelihood 5 2.04 1)
              bolstad_values bolstad_masses).
  assert (Hm : 0 < 0.0 + Rsum m).
  { assert (0 < Rsum m); [| lra].
    apply Rsum_pos.
    - apply weighted_nonneg; [intros x; left; apply exp_pos |].
      unfold bolstad_masses. repeat constructor; lra.
    - apply Exists_cons_hd. cbn [fst snd].
      apply Rmult_lt_0_compat; [lra | apply exp_pos]. }
  exists (map (fun posti => posti / (0.0 + Rsum m)) m). split.
  - unfold NormMuPMFDPri.
    rewrite length_guard_passes by reflexivity.
    now rewrite (NormMuPMFDPri_loop_spec 5 2.04 bolstad_values
                   bolstad_masses 0.0 Hσ).
  - unfold m at 1 3, weighted, bolstad_values, bolstad_masses.
    cbn [combine map nth fst snd].
    apply Rmult_lt_compat_r; [now apply Rinv_0_lt_compat |].
    cbv beta iota delta [fst snd].
    apply Rmult_lt_compat_l; [lra |].
    unfold sample_likelihood. apply exp_increasing. lra.
Qed.

(** ** Further statements at concrete inputs *)

(** The mean squared error at [r = 2], [v = 1], [λ = 3]. *)
Lemma PoissonLambdaMSE_ge_variance_witness :
  PoissonLambdaPostVar 2 1 3 <= PoissonLambdaMSE 2 1 3.
Proof.
  assert (Hv : 0 < 1) by apply Rlt_0_1.
  exact (proj1 (proj2 (PoissonLambdaMSE_ge_variance 2 3 Hv))).
Defined.

(** Both updates on the discrete prior of the scenario return five masses. *)
Lemma discrete_posterior_length_witness :
  exists post,
    NormMuPMFDPri 5 2.04 1 bolstad_values bolstad_masses = Ok post
    /\ length post = 5%nat.
Proof.
  assert (Hlen : length bolstad_masses = length bolstad_values)
    by reflexivity.
  assert (Hσ : 0 < 1) by apply Rlt_0_1.
  exact (proj2 (@discrete_posterior_length DstExample
                  2.04 5 2.04 1 bolstad_values bolstad_masses Hlen Hσ)).
Defined.

Lemma bolstad_total_pos (nObs : Z) :
  0 < Rsum (weighted (sample_likelihood nObs 2.04 1)
              bolstad_values bolstad_masses).
Proof.
  apply Rsum_pos.
  - apply weighted_nonneg; [intros x; left; apply exp_pos |].
    unfold bolstad_masses. repeat constructor; lra.
  - apply Exists_cons_hd. cbn [fst snd].
    apply Rmult_lt_0_compat; [lra | apply exp_pos].
Qed.

(** Prior masses given in per cent, [10, 20, 40, 20, 10], lead to the same
    posterior as the prior masses of the scenario. *)
Lemma discrete_posterior_prior_scale_invariant_witness :
  NormMuPMFDPri 5 2.04 1 bolstad_values (map (Rmult 100) bolstad_masses)
  = NormMuPMFDPri 5 2.04 1 bolstad_values bolstad_masses.
Proof.
  assert (Hc : 100 <> 0) by (apply Rgt_not_eq; lra).
  assert (Hlen : length bolstad_masses = length bolstad_values)
    by reflexivity.
  assert (Hσ : 0 < 1) by apply Rlt_0_1.
  assert (Hsum : Rsum (weighted (sample_likelihood 5 2.04 1)
                         bolstad_values bolstad_masses) <> 0).
  { apply Rgt_not_eq. apply bolstad_total_pos. }
  exact (proj2 (@discrete_posterior_prior_scale_invariant DstExample
                  100 2.04 5 2.04 1 bolstad_values bolstad_masses
                  Hc Hlen Hσ) Hsum).
Defined.

(** The posterior masses of the scenario lie in [[0, 1]]. *)
Lemma NormMuPMFDPri_masses_witness :
  exists post,
    NormMuPMFDPri 5 2.04 1 bolstad_values bolstad_masses = Ok post
    /\ Forall (fun p => 0 <= p <= 1) post.
Proof.
  assert (Hlen : length bolstad_masses = length bolstad_values)
    by reflexivity.
  assert (Hσ : 0 < 1) by apply Rlt_0_1.
  assert (Hpri : Forall (Rle 0) bolstad_masses).
  { unfold bolstad_masses. repeat constructor; lra. }
  assert (Hex : Exists (Rlt 0)
                  (weighted (sample_likelihood 5 2.04 1)
                     bolstad_values bolstad_masses)).
  { apply Exists_cons_hd. cbn [fst snd].
    apply Rmult_lt_0_compat; [lra | apply exp_pos]. }
  destruct (@NormMuPMFDPri_masses 5 2.04 1 bolstad_values bolstad_masses
              Hlen Hσ Hpri Hex) as [post [Hpost [Hunit _]]].
  exists post. split; [exact Hpost | exact Hunit].
Defined.

(** With the standard Normal density for [ZPDFAt], one observation of 2.04
    and a sample of size 1 with mean 2.04 give the same posterior. *)
Lemma NormMuSinglePMFDPri_is_NormMuPMFDPri_at_one_witness :
  NormMuSinglePMFDPri (D := DstExample) 2.04 1 bolstad_values bolstad_masses
  = NormMuPMFDPri 1 2.04 1 bolstad_values bolstad_masses.
Proof.
  assert (Hz : forall z, ZPDFAt (Dst := DstExample) z = std_normal_pdf z)
    by reflexivity.
  assert (Hlen : length bolstad_masses = length bolstad_values)
    by reflexivity.
  assert (Hσ : 0 < 1) by apply Rlt_0_1.
  assert (Hsum : Rsum (weighted (sample_likelihood 1 2.04 1)
                         bolstad_values bolstad_masses) <> 0).
  { apply Rgt_not_eq. apply bolstad_total_pos. }
  exact (@NormMuSinglePMFDPri_is_NormMuPMFDPri_at_one DstExample
           2.04 1 bolstad_values bolstad_masses Hz Hlen Hσ Hsum).
Defined.

(** The posterior standard deviation for [n = 20], [σ = 1], prior
    [Normal(0, 1)]. *)
Lemma NormMuPostStd_bounds_witness :
  0 < NormMuPostStd 20 1 0 1 /\ NormMuPostStd 20 1 0 1 < 1.
Proof.
  assert (Hn : (0 < 20)%Z) by reflexivity.
  assert (Hσ : 0 < 1) by apply Rlt_0_1.
  destruct (NormMuPostStd_bounds 0 Hn Hσ Hσ) as [Hpos [Hlt _]].
  split; [exact Hpos | exact Hlt].
Defined.

(** The posterior mean for [n = 20], [ȳ = 2], [σ = 1], prior
    [Normal(0, 1)]. *)
Lemma NormMuPostMean_between_witness :
  Rmin 0 2 <= NormMuPostMean 20 2 1 0 1 <= Rmax 0 2.
Proof.
  assert (Hn : (0 < 20)%Z) by reflexivity.
  assert (Hσ : 0 < 1) by apply Rlt_0_1.
  exact (proj2 (NormMuPostMean_between 2 0 Hn Hσ Hσ)).
Defined.

(** The flat-prior quantile at [y = 2], [σ = 1], [p = 0.5]. *)
Lemma NormMuQtlFPri_at_one_witness :
  NormMuQtlFPri (D := DstExample) 1 2 1 0.5
  = Ok (NormMuSingleQtlFPri (D := DstExample) 2 1 0.5).
Proof.
  assert (Hσ : 0 < 1) by apply Rlt_0_1.
  exact (NormMuQtlFPri_at_one (D := DstExample) 2 0.5 Hσ).
Defined.

(** The degrees of freedom for [estvar1 = 4], [n1 = 10], [estvar2 = 9],
    [n2 = 15] lie between 11 and 27. *)
Lemma satterthwaitenu_bounds_witness :
  exists k : Z,
    satterthwaitenu 4 10 9 15 = IZR k
    /\ (Z.min 10 15 + 1 <= k <= 10 + 15 + 2)%Z
    /\ (2 <= k)%Z.
Proof.
  assert (H4 : 0 < 4) by lra.
  assert (H9 : 0 < 9) by lra.
  assert (H10 : (0 < 10)%Z) by reflexivity.
  assert (H15 : (0 < 15)%Z) by reflexivity.
  exact (satterthwaitenu_bounds H4 H9 H10 H15).
Defined.

(** The variance estimate of the three observations [1, 2, 3]. *)
Lemma varest_nonneg_witness :
  exists s, varest [1; 2; 3] 3 = Ok s /\ 0 <= s.
Proof.
  assert (Hn : (2 <= 3)%Z) by (intro H; discriminate H).
  assert (Hlen : (3 <= Z.of_nat (length [1; 2; 3]))%Z)
    by (intro H; discriminate H).
  destruct (varest_nonneg [1; 2; 3] Hn Hlen) as [s [Hs [_ [Hpos _]]]].
  exists s. split; [exact Hs | exact Hpos].
Defined.

(** The Michelson data again: each posterior standard deviation is at most
    the standard deviation of the difference. *)
Lemma NormalMuDiffMomentsNPriKn_std_bounds_witness :
  NormMuPostStd 20 100 300000 500
  <= snd (NormalMuDiffMomentsNPriKn
            20 23 299909 299756 100 100 300000 500 300000 500).
Proof.
  assert (H20 : (0 < 20)%Z) by reflexivity.
  assert (H23 : (0 < 23)%Z) by reflexivity.
  assert (H100 : 0 < 100) by lra.
  assert (H500 : 0 < 500) by lra.
  exact (proj1 (@NormalMuDiffMomentsNPriKn_std_bounds
                  20 23 299909 299756 100 100 300000 500 300000 500
                  H20 H23 H100 H100 H500 H500)).
Defined.
